(** * Password-Generator: a shallow embedding of [password_generator.py]

    The module has two generators, [generate_memorable] and
    [generate_random], a word-list loader [load_nouns] and a logging helper
    [append_log].  They read a word-list file, the wall clock and two random
    sources, and they append to two log files.  All of that is made explicit
    here as a [world] that is threaded through a small state-and-exception
    monad.

    Conventions.
    - A Python [str] is a [list ascii]; a character is a one-element string.
      The model covers text over the ASCII repertoire (code points below 128),
      which is closed under [lower], [upper] and [title].
    - A Python [int] is a [Z].
    - [random] (the module-level Mersenne Twister) and [secrets] (the system
      source) are two independent streams of naturals; drawing a number below
      [n] takes the next element of the stream modulo [n]. *)

From Stdlib Require Import ZArith Ascii String List Lia.
From stdpp Require Import base list strings gmap sorting.

Local Open Scope nat_scope.

(** ** Strings and characters *)

Abbreviation str := (list ascii).

Definition lit (s : string) : str := list_ascii_of_string s.

Definition code (c : ascii) : nat := nat_of_ascii c.

Definition chr (n : nat) : ascii := ascii_of_nat n.

Definition LF : ascii := chr 10.
Definition CR : ascii := chr 13.
Definition HYPHEN : ascii := chr 45.

(** [string.ascii_lowercase], [string.ascii_uppercase], [string.digits] and
    [string.punctuation] of the Python standard library. *)
Definition ascii_lowercase : str := lit "abcdefghijklmnopqrstuvwxyz".
Definition ascii_uppercase : str := lit "ABCDEFGHIJKLMNOPQRSTUVWXYZ".
Definition digits : str := lit "0123456789".
Definition punctuation : str :=
  lit "!" ++ [chr 34] ++ lit "#$%&'()*+,-./:;<=>?@[\]^_`{|}~".

(** [str.isupper], [str.islower] and [str.isspace] on one character. *)
Definition is_upper (c : ascii) : bool := (65 <=? code c) && (code c <=? 90).
Definition is_lower (c : ascii) : bool := (97 <=? code c) && (code c <=? 122).
Definition is_space (c : ascii) : bool :=
  ((9 <=? code c) && (code c <=? 13)) || ((28 <=? code c) && (code c <=? 32))
  || (code c =? 133) || (code c =? 160).
Definition is_digit (c : ascii) : bool := (48 <=? code c) && (code c <=? 57).

Definition to_lower (c : ascii) : ascii :=
  if is_upper c then chr (code c + 32) else c.
Definition to_upper (c : ascii) : ascii :=
  if is_lower c then chr (code c - 32) else c.

(** [w.lower()] and [w.upper()]. *)
Definition lower (w : str) : str := map to_lower w.
Definition upper (w : str) : str := map to_upper w.

(** [w.title()]: a cased character that follows an uncased one (or starts the
    string) is upper-cased, every other cased character is lower-cased. *)
Fixpoint title_from (previous_is_cased : bool) (w : str) : str :=
  match w with
  | [] => []
  | c :: r =>
      if is_lower c then
        (if previous_is_cased then c else to_upper c) :: title_from true r
      else if is_upper c then
        (if previous_is_cased then to_lower c else c) :: title_from true r
      else c :: title_from false r
  end.
Definition title (w : str) : str := title_from false w.

(** [s.strip()]: leading and trailing whitespace removed. *)
Fixpoint lstrip (s : str) : str :=
  match s with
  | [] => []
  | c :: r => if is_space c then lstrip r else s
  end.
Definition rstrip (s : str) : str := rev (lstrip (rev s)).
Definition strip (s : str) : str := rstrip (lstrip s).

(** [sep.join(parts)]. *)
Fixpoint join (sep : str) (parts : list str) : str :=
  match parts with
  | [] => []
  | [p] => p
  | p :: ps => p ++ sep ++ join sep ps
  end.

(** [s.split(c)] for a one-character separator: the segments between the
    occurrences of [c]. *)
Fixpoint split_on (c : ascii) (s : str) : list str :=
  match s with
  | [] => [[]]
  | x :: r =>
      if decide (x = c) then [] :: split_on c r
      else match split_on c r with
           | [] => [[x]]
           | seg :: segs => (x :: seg) :: segs
           end
  end.

(** Truth value of a string: empty is false. *)
Definition nonempty (s : str) : bool :=
  match s with [] => false | _ => true end.

(** Number of line terminators in a text. *)
Definition newlines (s : str) : nat := length (filter (λ c, c = LF) s).

(** ** Reading a text file *)

(** Text mode with the default [newline=None]: the terminators CR LF and CR
    are read as LF. *)
Fixpoint universal_newlines (s : str) : str :=
  match s with
  | [] => []
  | c :: r =>
      if decide (c = CR) then
        match r with
        | c' :: r' =>
            if decide (c' = LF) then LF :: universal_newlines r'
            else LF :: universal_newlines r
        | [] => [LF]
        end
      else c :: universal_newlines r
  end.

(** Iterating over a text file yields its lines, each with its terminator;
    a last line without terminator is yielded as it is. *)
Fixpoint file_lines (s : str) : list str :=
  match s with
  | [] => []
  | c :: r =>
      if decide (c = LF) then [c] :: file_lines r
      else match file_lines r with
           | [] => [[c]]
           | l :: ls => (c :: l) :: ls
           end
  end.

(** [words[:limit]] for a list of length [len]: the stop index of the slice.
    A negative [limit] counts from the end. *)
Definition slice_stop (limit : Z) (len : nat) : nat :=
  if (limit <? 0)%Z then Z.to_nat (Z.max 0 (Z.of_nat len + limit))
  else Nat.min (Z.to_nat limit) len.

(** ** The clock *)

Inductive weekday := Mon | Tue | Wed | Thu | Fri | Sat | Sun.
Inductive month :=
  Jan | Feb | Mar | Apr | May | Jun | Jul | Aug | Sep | Oct | Nov | Dec.

(** The fields of a [datetime] that the format string uses.  For a value of
    [datetime.now()], [dt_day], [dt_hour], [dt_minute] and [dt_second] are
    below 100 and [dt_year] has four digits. *)
Record datetime := {
  dt_weekday : weekday;
  dt_month : month;
  dt_day : nat;
  dt_year : nat;
  dt_hour : nat;
  dt_minute : nat;
  dt_second : nat
}.

Definition digit (n : nat) : ascii := chr (48 + n mod 10).
Definition pad2 (n : nat) : str := [digit (n / 10); digit n].
Definition pad4 (n : nat) : str :=
  [digit (n / 1000); digit (n / 100); digit (n / 10); digit n].

Definition fmt_a (d : weekday) : str :=
  lit match d with
      | Mon => "Mon" | Tue => "Tue" | Wed => "Wed" | Thu => "Thu"
      | Fri => "Fri" | Sat => "Sat" | Sun => "Sun"
      end.
Definition fmt_b (m : month) : str :=
  lit match m with
      | Jan => "Jan" | Feb => "Feb" | Mar => "Mar" | Apr => "Apr"
      | May => "May" | Jun => "Jun" | Jul => "Jul" | Aug => "Aug"
      | Sep => "Sep" | Oct => "Oct" | Nov => "Nov" | Dec => "Dec"
      end.

(** [strftime("%a %b %d %Y %H:%M:%S")] in the C locale. *)
Definition strftime (t : datetime) : str :=
  fmt_a (dt_weekday t) ++ lit " " ++ fmt_b (dt_month t) ++ lit " "
  ++ pad2 (dt_day t) ++ lit " " ++ pad4 (dt_year t) ++ lit " "
  ++ pad2 (dt_hour t) ++ lit ":" ++ pad2 (dt_minute t) ++ lit ":"
  ++ pad2 (dt_second t).

(** ** The world and the monad *)

Inductive log_path := MEMORABLE_LOG | RANDOM_LOG.

(** What the module reads and writes: the word-list file ([None] when it
    cannot be opened), the contents of the two log files (an absent file is
    the empty text), the clock, and the two random sources with the number of
    draws already made from each. *)
Record world := {
  nouns_file : option str;
  memorable_log : str;
  random_log : str;
  clock : datetime;
  random_src : nat → nat;
  random_pos : nat;
  secrets_src : nat → nat;
  secrets_pos : nat
}.

Inductive exn :=
  | ValueError (msg : str)
  | FileNotFoundError
  | IndexError.

Inductive outcome (A : Type) :=
  | Return (a : A)
  | Raise (e : exn).
Arguments Return {A} a.
Arguments Raise {A} e.

Definition M (A : Type) : Type := world → outcome A * world.

Definition ret {A} (a : A) : M A := λ w, (Return a, w).
Definition raise {A} (e : exn) : M A := λ w, (Raise e, w).
Definition bind {A B} (m : M A) (k : A → M B) : M B :=
  λ w, match m w with
       | (Return a, w') => k a w'
       | (Raise e, w') => (Raise e, w')
       end.

Notation "'let!' x ':=' m 'in' k" := (bind m (λ x, k))
  (at level 10, x name, m at level 100, k at level 200, only parsing).

(** The log file a path denotes. *)
Definition log_of (p : log_path) (w : world) : str :=
  match p with
  | MEMORABLE_LOG => memorable_log w
  | RANDOM_LOG => random_log w
  end.

Definition write_log (p : log_path) (text : str) (w : world) : world :=
  match p with
  | MEMORABLE_LOG =>
      {| nouns_file := nouns_file w;
         memorable_log := memorable_log w ++ text;
         random_log := random_log w;
         clock := clock w;
         random_src := random_src w; random_pos := random_pos w;
         secrets_src := secrets_src w; secrets_pos := secrets_pos w |}
  | RANDOM_LOG =>
      {| nouns_file := nouns_file w;
         memorable_log := memorable_log w;
         random_log := random_log w ++ text;
         clock := clock w;
         random_src := random_src w; random_pos := random_pos w;
         secrets_src := secrets_src w; secrets_pos := secrets_pos w |}
  end.

(** One draw below [n] from the [random] module. *)
Definition random_below (n : nat) : M nat :=
  λ w, (Return (random_src w (random_pos w) mod n),
        {| nouns_file := nouns_file w;
           memorable_log := memorable_log w;
           random_log := random_log w;
           clock := clock w;
           random_src := random_src w; random_pos := S (random_pos w);
           secrets_src := secrets_src w; secrets_pos := secrets_pos w |}).

(** One draw below [n] from the system source. *)
Definition secrets_below (n : nat) : M nat :=
  λ w, (Return (secrets_src w (secrets_pos w) mod n),
        {| nouns_file := nouns_file w;
           memorable_log := memorable_log w;
           random_log := random_log w;
           clock := clock w;
           random_src := random_src w; random_pos := random_pos w;
           secrets_src := secrets_src w; secrets_pos := S (secrets_pos w) |}).

(** [seq[i]], raising [IndexError] out of range. *)
Definition item {A} (l : list A) (i : nat) : M A :=
  match l !! i with
  | Some x => ret x
  | None => raise IndexError
  end.

(** [random.choice(seq)] and [secrets.choice(seq)]: an empty sequence raises
    [IndexError]; otherwise the element at a drawn position. *)
Definition random_choice {A} (l : list A) : M A :=
  match l with
  | [] => raise IndexError
  | _ => let! i := random_below (length l) in item l i
  end.
Definition secrets_choice {A} (l : list A) : M A :=
  match l with
  | [] => raise IndexError
  | _ => let! i := secrets_below (length l) in item l i
  end.

(** [random.sample(pool, k)] for [k <= len(pool)]: [k] positions are drawn
    without replacement.  Draw [i] picks a position among the [n - i] that
    are still unpicked, and the last unpicked element moves into the hole. *)
Fixpoint sample_from {A} (pool : list A) (k : nat) : M (list A) :=
  match k with
  | 0 => ret []
  | S k' =>
      match pool with
      | [] => raise (ValueError (lit "Sample larger than population or is negative"))
      | x0 :: _ =>
          let! j := random_below (length pool) in
          let! x := item pool j in
          let last := List.last pool x0 in
          let! rest := sample_from (removelast (<[j := last]> pool)) k' in
          ret (x :: rest)
      end
  end.
Definition random_sample {A} (pool : list A) (k : nat) : M (list A) :=
  if decide (k ≤ length pool) then sample_from pool k
  else raise (ValueError (lit "Sample larger than population or is negative")).

(** ** The module's functions *)

Definition timestamp : M str := λ w, (Return (strftime (clock w)), w).

(** The text of one log entry. *)
Definition log_entry (stamp password : str) : str :=
  stamp ++ lit "  |  " ++ password ++ [LF].

Definition append_log (p : log_path) (password : str) : M unit :=
  let! stamp := timestamp in
  λ w, (Return tt, write_log p (log_entry stamp password) w).

(** The words of a word-list text: the stripped non-blank lines. *)
Definition nouns_of_text (text : str) : list str :=
  map strip (filter (λ line, nonempty (strip line) = true)
                    (file_lines (universal_newlines text))).

Definition load_nouns (limit : option Z) : M (list str) :=
  λ w, match nouns_file w with
       | None => (Raise FileNotFoundError, w)
       | Some text =>
           let words := nouns_of_text text in
           let words :=
             match limit with
             | Some m => take (slice_stop m (length words)) words
             | None => words
             end in
           (Return words, w)
       end.

(** The inner function of [generate_memorable]; [case] is any string. *)
Definition apply_case (case : str) (w : str) : M str :=
  if decide (case = lit "lower") then ret (lower w)
  else if decide (case = lit "upper") then ret (upper w)
  else if decide (case = lit "title") then ret (title w)
  else if decide (case = lit "mixed") then
    random_choice [lower w; upper w; title w]
  else raise (ValueError (lit "case must be 'lower', 'upper', 'title', or 'mixed'")).

(** The loop that fills [processed]. *)
Fixpoint process_words (case : str) (add_digit_each : bool) (words : list str)
  : M (list str) :=
  match words with
  | [] => ret []
  | w :: ws =>
      let! w2 := apply_case case w in
      let! w2 := (if add_digit_each
                  then let! d := secrets_choice digits in ret (w2 ++ [d])
                  else ret w2) in
      let! processed := process_words case add_digit_each ws in
      ret (w2 :: processed)
  end.

(** [nouns_pool] is [None] or the items the given iterable yields. *)
Definition generate_memorable (n_words : Z) (case : str)
    (add_digit_each : bool) (nouns_pool : option (list str)) : M str :=
  if (n_words <=? 0)%Z then raise (ValueError (lit "n_words must be >= 1."))
  else
    let! pool := (match nouns_pool with
                  | None => load_nouns None
                  | Some p => ret p
                  end) in
    if (n_words >? Z.of_nat (length pool))%Z
    then raise (ValueError (lit "n_words is larger than the nouns list."))
    else
      let! words := random_sample pool (Z.to_nat n_words) in
      let! processed := process_words case add_digit_each words in
      let pwd := join [HYPHEN] processed in
      let! _ := append_log MEMORABLE_LOG pwd in
      ret pwd.

(** The [forbidden] argument: a string, a list or a set of strings. *)
Inductive iterable :=
  | IterStr (s : str)
  | IterList (l : list str)
  | IterSet (s : gset str).

(** Truth value of a collection: empty is false. *)
Definition truthy (it : iterable) : bool :=
  match it with
  | IterStr s => nonempty s
  | IterList l => match l with [] => false | _ => true end
  | IterSet s => bool_decide (s ≠ ∅)
  end.

(** [set(forbidden)]: iterating a string yields its characters. *)
Definition to_set (it : iterable) : gset str :=
  match it with
  | IterStr s => list_to_set (map (λ c, [c]) s)
  | IterList l => list_to_set l
  | IterSet s => s
  end.

(** The set [alphabet] of [generate_random] just before the emptiness test.
    Its elements are one-character strings, kept here as characters; the
    difference with [set(forbidden)] removes the characters that occur in it
    as one-character strings. *)
Definition build_alphabet (include_punct : bool) (forbidden : option iterable)
  : gset ascii :=
  let alphabet : gset ascii :=
    list_to_set (ascii_lowercase ++ ascii_uppercase ++ digits) in
  let alphabet :=
    if include_punct then alphabet ∪ list_to_set punctuation else alphabet in
  match forbidden with
  | Some f =>
      if truthy f then filter (λ c, [c] ∉ to_set f) alphabet else alphabet
  | None => alphabet
  end.

(** [sorted(alphabet)]: ascending code points. *)
Definition code_le (a b : ascii) : Prop := code a ≤ code b.
#[global] Instance code_le_dec (a b : ascii) : Decision (code_le a b).
Proof. unfold code_le. apply _. Defined.
Definition sorted (s : gset ascii) : str := merge_sort code_le (elements s).

(** [secrets.choice(alphabet) for _ in range(length)]. *)
Fixpoint draw_chars (alphabet : str) (n : nat) : M str :=
  match n with
  | 0 => ret []
  | S n' =>
      let! c := secrets_choice alphabet in
      let! rest := draw_chars alphabet n' in
      ret (c :: rest)
  end.

Definition generate_random (length : Z) (include_punct : bool)
    (forbidden : option iterable) : M str :=
  if (length <=? 0)%Z then raise (ValueError (lit "length must be >= 1."))
  else
    let alphabet := build_alphabet include_punct forbidden in
    if decide (alphabet = ∅)
    then raise (ValueError (lit "No characters available to generate password."))
    else
      let alphabet := sorted alphabet in
      let! pwd := draw_chars alphabet (Z.to_nat length) in
      let! _ := append_log RANDOM_LOG pwd in
      ret pwd.

(** * Properties *)

(** ** The monad: what a computation leaves untouched *)

(** [frame w w']: the files and the clock of [w'] are those of [w]. *)
Definition frame (w w' : world) : Prop :=
  nouns_file w' = nouns_file w ∧ memorable_log w' = memorable_log w
  ∧ random_log w' = random_log w ∧ clock w' = clock w.

(** A computation is quiet when it only consumes randomness. *)
Definition quiet {A} (m : M A) : Prop :=
  ∀ w r w', m w = (r, w') → frame w w'.

(** A computation is total when it never raises. *)
Definition total {A} (m : M A) : Prop :=
  ∀ w, ∃ a w', m w = (Return a, w').

Lemma frame_refl w : frame w w.
Proof. by repeat split. Qed.

Lemma frame_trans w1 w2 w3 : frame w1 w2 → frame w2 w3 → frame w1 w3.
Proof.
  intros (?&?&?&?) (?&?&?&?). repeat split; congruence.
Qed.

Create HintDb quiet.

Lemma quiet_ret {A} (a : A) : quiet (ret a).
Proof. intros w r w' [= <- <-]. apply frame_refl. Qed.

Lemma quiet_raise {A} e : quiet (@raise A e).
Proof. intros w r w' [= <- <-]. apply frame_refl. Qed.

Lemma quiet_bind {A B} (m : M A) (k : A → M B) :
  quiet m → (∀ a, quiet (k a)) → quiet (bind m k).
Proof.
  intros Hm Hk w r w'. unfold bind.
  destruct (m w) as [[a|e] w1] eqn:E; intros H.
  - eapply frame_trans; [by eapply Hm | by eapply Hk].
  - injection H as <- <-. by eapply Hm.
Qed.

Lemma quiet_random_below n : quiet (random_below n).
Proof. intros w r w' [= <- <-]. by repeat split. Qed.

Lemma quiet_secrets_below n : quiet (secrets_below n).
Proof. intros w r w' [= <- <-]. by repeat split. Qed.

Lemma quiet_item {A} (l : list A) i : quiet (item l i).
Proof. unfold item. destruct (l !! i); [apply quiet_ret | apply quiet_raise]. Qed.

#[global] Hint Resolve quiet_ret quiet_raise quiet_random_below
  quiet_secrets_below quiet_item : quiet.

Lemma quiet_random_choice {A} (l : list A) : quiet (random_choice l).
Proof.
  destruct l; simpl; [apply quiet_raise |].
  apply quiet_bind; auto with quiet.
Qed.

Lemma quiet_secrets_choice {A} (l : list A) : quiet (secrets_choice l).
Proof.
  destruct l; simpl; [apply quiet_raise |].
  apply quiet_bind; auto with quiet.
Qed.

#[global] Hint Resolve quiet_random_choice quiet_secrets_choice : quiet.

Lemma quiet_sample_from {A} (pool : list A) k : quiet (sample_from pool k).
Proof.
  revert pool. induction k as [|k IH]; intros pool; simpl; [apply quiet_ret |].
  destruct pool; [apply quiet_raise |].
  repeat (apply quiet_bind; [auto with quiet | intros ?]).
  apply quiet_ret.
Qed.

Lemma quiet_random_sample {A} (pool : list A) k : quiet (random_sample pool k).
Proof.
  unfold random_sample. case_decide; [apply quiet_sample_from | apply quiet_raise].
Qed.

Lemma quiet_load_nouns limit : quiet (load_nouns limit).
Proof.
  intros w r w'. unfold load_nouns.
  destruct (nouns_file w); intros [= <- <-]; apply frame_refl.
Qed.

Lemma quiet_apply_case case w : quiet (apply_case case w).
Proof.
  unfold apply_case. repeat case_decide; auto with quiet.
Qed.

#[global] Hint Resolve quiet_random_sample quiet_load_nouns quiet_apply_case
  : quiet.

Lemma quiet_process_words case add words :
  quiet (process_words case add words).
Proof.
  induction words as [|w ws IH]; simpl; [apply quiet_ret |].
  apply quiet_bind; [auto with quiet | intros w2].
  apply quiet_bind.
  - destruct add; [| apply quiet_ret].
    apply quiet_bind; [| intros d; apply quiet_ret].
    apply quiet_bind; auto with quiet.
  - intros w3. apply quiet_bind; [exact IH | intros ?; apply quiet_ret].
Qed.

Lemma quiet_draw_chars alphabet n : quiet (draw_chars alphabet n).
Proof.
  induction n as [|n IH]; simpl; [apply quiet_ret |].
  repeat (apply quiet_bind; [auto with quiet | intros ?]).
  apply quiet_ret.
Qed.

#[global] Hint Resolve quiet_process_words quiet_draw_chars : quiet.

(** Writing a log entry changes the named log and nothing else. *)
Lemma append_log_run p password w :
  append_log p password w
  = (Return tt, write_log p (log_entry (strftime (clock w)) password) w).
Proof. reflexivity. Qed.

Lemma bind_Return {A B} (m : M A) (k : A → M B) w a w1 :
  m w = (Return a, w1) → bind m k w = k a w1.
Proof. unfold bind. by intros ->. Qed.

Lemma bind_Raise {A B} (m : M A) (k : A → M B) w e w1 :
  m w = (Raise e, w1) → bind m k w = (Raise e, w1).
Proof. unfold bind. by intros ->. Qed.

(** ** Sampling without replacement *)

Lemma insert_swap_perm {A} (l : list A) j x y :
  l !! j = Some x → x :: <[j := y]> l ≡ₚ y :: l.
Proof.
  revert j. induction l as [|a l IH]; intros [|j] H; simplify_eq/=.
  - apply Permutation_swap.
  - rewrite Permutation_swap. rewrite (IH j H). apply Permutation_swap.
Qed.

Lemma swap_remove_perm {A} (pool : list A) j x d :
  pool !! j = Some x →
  x :: removelast (<[j := List.last pool d]> pool) ≡ₚ pool.
Proof.
  destruct pool as [|lst init _] using rev_ind; [done |].
  intros H. rewrite last_last.
  destruct (decide (j < length init)) as [Hlt|Hge].
  - rewrite insert_app_l by done. rewrite removelast_last.
    rewrite lookup_app_l in H by done.
    rewrite (insert_swap_perm _ _ _ _ H). by rewrite Permutation_cons_append.
  - assert (j = length init) as ->.
    { apply lookup_lt_Some in H. rewrite length_app in H. simpl in H. lia. }
    rewrite list_lookup_middle in H by done. injection H as <-.
    rewrite insert_app_r_alt by done. rewrite Nat.sub_diag. simpl.
    rewrite removelast_last. by rewrite Permutation_cons_append.
Qed.

Lemma length_swap_remove {A} (pool : list A) j y :
  length (removelast (<[j := y]> pool)) = pred (length pool).
Proof.
  rewrite <- (length_insert pool j y).
  destruct (<[j := y]> pool) as [|lst init _] using rev_ind; [done |].
  rewrite removelast_last, length_app. simpl. lia.
Qed.

(** Sampling [k ≤ len(pool)] items succeeds and returns [k] entries of the
    pool, no entry being used more often than it occurs in the pool. *)
Lemma sample_from_spec {A} (pool : list A) k w :
  k ≤ length pool →
  ∃ words w', sample_from pool k w = (Return words, w')
              ∧ length words = k ∧ words ⊆+ pool.
Proof.
  revert pool w. induction k as [|k IH]; intros pool w Hk; simpl.
  { exists [], w. split_and!; [done | done | apply submseteq_nil_l]. }
  destruct pool as [|x0 t] eqn:Ep; [simpl in Hk; lia |]. rewrite <- Ep in *.
  assert (length pool ≠ 0) as Hne by (subst; done).
  set (j := random_src w (random_pos w) mod length pool).
  assert (j < length pool) as Hj by (by apply Nat.mod_upper_bound).
  destruct (lookup_lt_is_Some_2 pool j Hj) as [x Hx].
  set (pool' := removelast (<[j := List.last pool x0]> pool)).
  match goal with |- context [bind (random_below _) ?k] =>
    rewrite (bind_Return (random_below (length pool)) k w j _ eq_refl) end.
  unfold item at 1. fold j. rewrite Hx.
  erewrite (bind_Return (ret x)) by reflexivity.
  match goal with |- context [sample_from ?p k] => change p with pool' end.
  destruct (IH pool' (snd (random_below (length pool) w)))
    as (rest & w' & Hrun & Hlen & Hsub).
  { unfold pool'. rewrite length_swap_remove. lia. }
  simpl in Hrun.
  erewrite bind_Return by exact Hrun.
  exists (x :: rest), w'. split_and!; [done | simpl; lia |].
  rewrite <- (swap_remove_perm pool j x x0 Hx). by apply submseteq_skip.
Qed.

(** ** Choices and the word loop *)

Lemma random_choice_spec {A} (l : list A) w :
  l ≠ [] → ∃ x w', random_choice l w = (Return x, w') ∧ x ∈ l.
Proof.
  intros Hne. destruct l as [|a t]; [done |]. clear Hne.
  set (i := random_src w (random_pos w) mod S (length t)).
  assert (i < S (length t)) as Hi by (by apply Nat.mod_upper_bound).
  destruct (lookup_lt_is_Some_2 (a :: t) i) as [x Hx]; [simpl; lia |].
  exists x. eexists. split; [| by eapply list_elem_of_lookup_2].
  unfold random_choice, bind, random_below, item. change (length (a :: t)) with (S (length t)). fold i.
  rewrite Hx. reflexivity.
Qed.

Lemma secrets_choice_spec {A} (l : list A) w :
  l ≠ [] → ∃ x w', secrets_choice l w = (Return x, w') ∧ x ∈ l.
Proof.
  intros Hne. destruct l as [|a t]; [done |]. clear Hne.
  set (i := secrets_src w (secrets_pos w) mod S (length t)).
  assert (i < S (length t)) as Hi by (by apply Nat.mod_upper_bound).
  destruct (lookup_lt_is_Some_2 (a :: t) i) as [x Hx]; [simpl; lia |].
  exists x. eexists. split; [| by eapply list_elem_of_lookup_2].
  unfold secrets_choice, bind, secrets_below, item. change (length (a :: t)) with (S (length t)). fold i.
  rewrite Hx. reflexivity.
Qed.

(** The four recognised case modes. *)
Definition valid_case (case : str) : Prop :=
  case ∈ [lit "lower"; lit "upper"; lit "title"; lit "mixed"].

#[global] Instance valid_case_dec case : Decision (valid_case case).
Proof. unfold valid_case. apply _. Defined.

(** [styled case w p]: [p] is the word [w] in a style that the mode [case]
    allows. *)
Definition styled (case : str) (w p : str) : Prop :=
  (case = lit "lower" ∧ p = lower w)
  ∨ (case = lit "upper" ∧ p = upper w)
  ∨ (case = lit "title" ∧ p = title w)
  ∨ (case = lit "mixed" ∧ p ∈ [lower w; upper w; title w]).

(** [suffixed add c p]: [p] is [c], followed by one decimal digit when [add]
    is set. *)
Definition suffixed (add : bool) (c p : str) : Prop :=
  if add then ∃ d, d ∈ digits ∧ p = c ++ [d] else p = c.

(** What the loop makes of one word. *)
Definition processed_form (case : str) (add : bool) (w p : str) : Prop :=
  ∃ c, styled case w c ∧ suffixed add c p.

Lemma apply_case_spec case wd w :
  valid_case case →
  ∃ p w', apply_case case wd w = (Return p, w') ∧ styled case wd p.
Proof.
  unfold valid_case, apply_case, styled. intros Hv.
  repeat case_decide; simplify_eq.
  - exists (lower wd), w. auto.
  - exists (upper wd), w. auto 6.
  - exists (title wd), w. auto 6.
  - destruct (random_choice_spec [lower wd; upper wd; title wd] w)
      as (p & w' & Hrun & Hin); [done |].
    exists p, w'. auto 8.
  - rewrite !elem_of_cons, elem_of_nil in Hv.
    by destruct Hv as [?|[?|[?|[?|[]]]]].
Qed.

Lemma apply_case_invalid case wd w :
  ¬ valid_case case →
  ∃ msg, apply_case case wd w = (Raise (ValueError msg), w).
Proof.
  unfold valid_case, apply_case. intros Hv.
  rewrite !elem_of_cons, elem_of_nil in Hv.
  repeat case_decide; try (exfalso; apply Hv; by auto 6).
  by eexists.
Qed.

Lemma process_words_spec case add words w :
  valid_case case →
  ∃ processed w',
    process_words case add words w = (Return processed, w')
    ∧ Forall2 (processed_form case add) words processed.
Proof.
  intros Hv. revert w. induction words as [|wd ws IH]; intros w; simpl.
  { exists [], w. split; [done | constructor]. }
  destruct (apply_case_spec case wd w Hv) as (c & w1 & Hc & Hst).
  erewrite bind_Return by exact Hc.
  assert (∃ p w2,
    (if add then let! d := secrets_choice digits in ret (c ++ [d]) else ret c) w1
    = (Return p, w2) ∧ suffixed add c p) as (p & w2 & Hp & Hsuf).
  { destruct add; simpl.
    - destruct (secrets_choice_spec digits w1) as (d & w2 & Hd & Hin); [done |].
      exists (c ++ [d]), w2. split; [| by exists d].
      change (bind (secrets_choice digits) (λ d, ret (c ++ [d])) w1
              = (Return (c ++ [d]), w2)).
      by erewrite bind_Return by exact Hd.
    - by exists c, w1. }
  erewrite bind_Return by exact Hp.
  destruct (IH w2) as (ps & w3 & Hps & Hall).
  erewrite bind_Return by exact Hps.
  exists (p :: ps), w3. split; [done |].
  constructor; [by exists c | done].
Qed.

Lemma process_words_invalid case add wd ws w :
  ¬ valid_case case →
  ∃ msg, process_words case add (wd :: ws) w = (Raise (ValueError msg), w).
Proof.
  intros Hv. destruct (apply_case_invalid case wd w Hv) as [msg Hr].
  exists msg. simpl. by erewrite bind_Raise by exact Hr.
Qed.

(** ** Failure leaves the logs alone *)

(** A computation is silent on failure when a raising run leaves the files
    and the clock as they were. *)
Definition silent_failure {A} (m : M A) : Prop :=
  ∀ w e w', m w = (Raise e, w') → frame w w'.

Lemma quiet_silent {A} (m : M A) : quiet m → silent_failure m.
Proof. intros Hq w e w' H. by eapply Hq. Qed.

Lemma silent_bind {A B} (m : M A) (k : A → M B) :
  quiet m → (∀ a, silent_failure (k a)) → silent_failure (bind m k).
Proof.
  intros Hm Hk w e w'. unfold bind.
  destruct (m w) as [[a|e1] w1] eqn:E; intros H.
  - eapply frame_trans; [by eapply Hm | by eapply Hk].
  - injection H as <- <-. by eapply Hm.
Qed.

Lemma silent_log_and_return p (pwd : str) :
  silent_failure (let! _ := append_log p pwd in ret pwd).
Proof. intros w e w'. unfold bind. by rewrite append_log_run. Qed.

Lemma silent_generate_memorable n case add np :
  silent_failure (generate_memorable n case add np).
Proof.
  unfold generate_memorable.
  destruct (n <=? 0)%Z; [apply quiet_silent, quiet_raise |].
  apply silent_bind; [destruct np; auto with quiet | intros pool].
  destruct (n >? Z.of_nat (length pool))%Z; [apply quiet_silent, quiet_raise |].
  apply silent_bind; [auto with quiet | intros words].
  apply silent_bind; [auto with quiet | intros processed].
  apply silent_log_and_return.
Qed.

Lemma silent_generate_random len punct forbidden :
  silent_failure (generate_random len punct forbidden).
Proof.
  unfold generate_random.
  destruct (len <=? 0)%Z; [apply quiet_silent, quiet_raise |].
  case_decide; [apply quiet_silent, quiet_raise |].
  apply silent_bind; [auto with quiet | intros pwd].
  apply silent_log_and_return.
Qed.

(** ** [generate_memorable] *)

(** The pool a call works on: the given one, or the words of the word-list
    file when that can be read. *)
Definition pool_of (nouns_pool : option (list str)) (w : world)
  : option (list str) :=
  match nouns_pool with
  | Some p => Some p
  | None => nouns_of_text <$> nouns_file w
  end.

Lemma resolve_pool np w pool :
  pool_of np w = Some pool →
  (match np with None => load_nouns None | Some p => ret p end) w
  = (Return pool, w).
Proof.
  destruct np as [p|]; simpl.
  - by intros [= ->].
  - unfold load_nouns. destruct (nouns_file w); simpl; [| done].
    by intros [= ->].
Qed.

(** A call with a valid count and a valid case mode: the sample, the loop and
    the log entry. *)
Lemma generate_memorable_ok n case add np pool w :
  pool_of np w = Some pool →
  (1 ≤ n ≤ Z.of_nat (length pool))%Z →
  valid_case case →
  ∃ words processed w1 w2,
    random_sample pool (Z.to_nat n) w = (Return words, w1)
    ∧ process_words case add words w1 = (Return processed, w2)
    ∧ generate_memorable n case add np w
      = (Return (join [HYPHEN] processed),
         write_log MEMORABLE_LOG
           (log_entry (strftime (clock w)) (join [HYPHEN] processed)) w2)
    ∧ length words = Z.to_nat n
    ∧ words ⊆+ pool
    ∧ Forall2 (processed_form case add) words processed
    ∧ frame w w2.
Proof.
  intros Hpool Hn Hv.
  destruct (sample_from_spec pool (Z.to_nat n) w) as (words & w1 & Hs & Hlen & Hsub);
    [lia |].
  destruct (process_words_spec case add words w1 Hv) as (ps & w2 & Hp & Hall).
  assert (random_sample pool (Z.to_nat n) w = (Return words, w1)) as Hrs.
  { unfold random_sample. case_decide; [done | lia]. }
  assert (frame w w2) as Hfr.
  { eapply frame_trans; [by eapply quiet_random_sample |
                         by eapply quiet_process_words]. }
  exists words, ps, w1, w2. split_and!; try done.
  unfold generate_memorable.
  destruct (Z.leb_spec n 0); [lia |].
  erewrite bind_Return by (by apply resolve_pool).
  destruct (Z.gtb_spec n (Z.of_nat (length pool))); [lia |].
  erewrite bind_Return by exact Hrs.
  erewrite bind_Return by exact Hp.
  unfold bind. rewrite append_log_run.
  destruct Hfr as (_ & _ & _ & ->). reflexivity.
Qed.

(** A call with a bad count or a bad case mode raises [ValueError]. *)
Lemma generate_memorable_invalid n case add np pool w :
  pool_of np w = Some pool →
  (n ≤ 0 ∨ Z.of_nat (length pool) < n)%Z ∨ ¬ valid_case case →
  ∃ msg w', generate_memorable n case add np w = (Raise (ValueError msg), w').
Proof.
  intros Hpool Hbad. unfold generate_memorable.
  destruct (Z.leb_spec n 0); [by eexists _, _ |].
  erewrite bind_Return by (by apply resolve_pool).
  destruct (Z.gtb_spec n (Z.of_nat (length pool))); [by eexists _, _ |].
  destruct Hbad as [[?|?]|Hv]; [lia | lia |].
  destruct (sample_from_spec pool (Z.to_nat n) w) as (words & w1 & Hs & Hlen & _);
    [lia |].
  assert (random_sample pool (Z.to_nat n) w = (Return words, w1)) as Hrs.
  { unfold random_sample. case_decide; [done | lia]. }
  erewrite bind_Return by exact Hrs.
  destruct words as [|wd ws]; [simpl in Hlen; lia |].
  destruct (process_words_invalid case add wd ws w1 Hv) as [msg Hr].
  exists msg, w1. by erewrite bind_Raise by exact Hr.
Qed.

(** ** Sample inputs *)

Definition demo_clock : datetime :=
  {| dt_weekday := Tue; dt_month := Nov; dt_day := 3; dt_year := 2026;
     dt_hour := 17; dt_minute := 29; dt_second := 5 |}.

(** A world with a three-word list, empty logs and two arithmetic random
    streams. *)
Definition demo_world : world :=
  {| nouns_file := Some (lit " cat
dog  

sun");
     memorable_log := [];
     random_log := [];
     clock := demo_clock;
     random_src := λ i, 7 * i + 2; random_pos := 0;
     secrets_src := λ i, 13 * i + 5; secrets_pos := 0 |}.

Definition demo_pool : list str := [lit "cat"; lit "dog"; lit "sun"].

Lemma valid_case_upper : valid_case (lit "upper").
Proof. unfold valid_case. apply list_elem_of_further, list_elem_of_here. Defined.

Lemma valid_case_mixed : valid_case (lit "mixed").
Proof. unfold valid_case. do 3 apply list_elem_of_further. apply list_elem_of_here. Defined.

Example demo_memorable_upper :
  (generate_memorable 3 (lit "upper") false (Some demo_pool) demo_world).1
  = Return (lit "SUN-DOG-CAT").
Proof. reflexivity. Qed.

Example demo_memorable_from_file :
  (generate_memorable 2 (lit "title") true None demo_world).1
  = Return (lit "Sun5-Dog8").
Proof. reflexivity. Qed.

(** ** [generate_memorable]: the password *)

(** C2.  For a word count [n >= 1] that does not exceed the pool size, a
    valid case mode and digit suffixing disabled, [generate_memorable]
    returns [n] pool words joined by single hyphens, each word in the style
    of the case mode: lower, upper or title, and under "mixed" one of those
    three for each word. *)
Theorem generate_memorable_joins_cased_words n case np pool w :
  pool_of np w = Some pool →
  (1 ≤ n ≤ Z.of_nat (length pool))%Z →
  valid_case case →
  ∃ words cased w',
    generate_memorable n case false np w = (Return (join [HYPHEN] cased), w')
    ∧ Z.of_nat (length words) = n
    ∧ words ⊆+ pool
    ∧ Forall2 (styled case) words cased.
Proof.
  intros Hpool Hn Hv.
  destruct (generate_memorable_ok n case false np pool w Hpool Hn Hv)
    as (words & ps & w1 & w2 & _ & _ & Hrun & Hlen & Hsub & Hall & _).
  exists words, ps. eexists. split_and!; [exact Hrun | lia | done |].
  eapply Forall2_impl; [exact Hall |].
  intros wd p (c & Hst & Hsuf). simpl in Hsuf. by subst.
Qed.

Lemma generate_memorable_joins_cased_words_witness :
  ∃ words cased w',
    generate_memorable 3 (lit "upper") false (Some demo_pool) demo_world
    = (Return (join [HYPHEN] cased), w')
    ∧ Z.of_nat (length words) = 3%Z
    ∧ words ⊆+ demo_pool
    ∧ Forall2 (styled (lit "upper")) words cased.
Proof.
  apply (generate_memorable_joins_cased_words 3 (lit "upper") (Some demo_pool)
           demo_pool demo_world).
  - reflexivity.
  - simpl. lia.
  - exact valid_case_upper.
Defined.

(** ** [generate_memorable]: when it fails *)

(** The number of different words in a pool. *)
Definition distinct_size (pool : list str) : nat := length (remove_dups pool).

(** The arguments that [generate_memorable] rejects, for a pool of [len]
    entries. *)
Definition rejected (n : Z) (case : str) (len : nat) : Prop :=
  (n ≤ 0)%Z ∨ (Z.of_nat len < n)%Z ∨ ¬ valid_case case.

#[global] Instance rejected_dec n case len : Decision (rejected n case len).
Proof. unfold rejected. apply _. Defined.

(** C3, as amended.  Given a readable pool, [generate_memorable] raises
    [ValueError] exactly when [n <= 0], or [n] exceeds the number of entries
    of the pool (repeated entries counted as often as they occur), or the case
    mode is not one of "lower", "upper", "title", "mixed"; otherwise it
    returns a password. *)
Theorem generate_memorable_fails_iff n case add np pool w :
  pool_of np w = Some pool →
  ((∃ msg, (generate_memorable n case add np w).1 = Raise (ValueError msg))
   ↔ rejected n case (length pool))
  ∧ ((∃ pwd, (generate_memorable n case add np w).1 = Return pwd)
     ↔ ¬ rejected n case (length pool)).
Proof.
  intros Hpool.
  assert (rejected n case (length pool) →
          ∃ msg, (generate_memorable n case add np w).1 = Raise (ValueError msg))
    as Hbad.
  { intros Hr.
    destruct (generate_memorable_invalid n case add np pool w Hpool)
      as (msg & w' & Hrun).
    - unfold rejected in Hr. tauto.
    - exists msg. by rewrite Hrun. }
  assert (¬ rejected n case (length pool) →
          ∃ pwd, (generate_memorable n case add np w).1 = Return pwd) as Hgood.
  { intros Hr.
    destruct (generate_memorable_ok n case add np pool w Hpool)
      as (words & ps & w1 & w2 & _ & _ & Hrun & _).
    - unfold rejected in Hr. lia.
    - destruct (decide (valid_case case)) as [|Hv]; [done |].
      exfalso. apply Hr. unfold rejected. auto.
    - eexists. by rewrite Hrun. }
  split; split; [| apply Hbad | | apply Hgood].
  - intros [msg Hm]. destruct (decide (rejected n case (length pool))); [done |].
    destruct Hgood as [pwd Hp]; [done |]. congruence.
  - intros [pwd Hp] Hr. destruct (Hbad Hr) as [msg Hm]. congruence.
Qed.

Lemma generate_memorable_fails_iff_witness :
  ((∃ msg, (generate_memorable 4 (lit "upper") true (Some demo_pool)
              demo_world).1 = Raise (ValueError msg))
   ↔ rejected 4 (lit "upper") (length demo_pool))
  ∧ ((∃ pwd, (generate_memorable 4 (lit "upper") true (Some demo_pool)
                demo_world).1 = Return pwd)
     ↔ ¬ rejected 4 (lit "upper") (length demo_pool)).
Proof.
  apply (generate_memorable_fails_iff 4 (lit "upper") true (Some demo_pool)
           demo_pool demo_world).
  reflexivity.
Defined.

(** C3, as stated, fails: the pool ["a"; "a"] has one distinct word, so a
    count of 2 exceeds the distinct pool size, and the call succeeds. *)
Lemma generate_memorable_distinct_size_counterexample :
  (Z.of_nat (distinct_size [lit "a"; lit "a"]) < 2)%Z
  ∧ (generate_memorable 2 (lit "lower") false (Some [lit "a"; lit "a"])
       demo_world).1 = Return (lit "a-a").
Proof. split; [vm_compute; reflexivity | reflexivity]. Qed.

(** ** [generate_memorable]: sampling without replacement *)

(** C5, as amended.  The [n] words of a memorable password are [n] entries of
    the pool taken at different positions: no entry is used more often than
    it occurs in the pool, and when the pool has no repeated entry, no word
    repeats within the password. *)
Theorem generate_memorable_samples_without_replacement
    n case add np pool w :
  pool_of np w = Some pool →
  (1 ≤ n ≤ Z.of_nat (length pool))%Z →
  valid_case case →
  ∃ words processed w',
    (random_sample pool (Z.to_nat n) w).1 = Return words
    ∧ generate_memorable n case add np w
      = (Return (join [HYPHEN] processed), w')
    ∧ Forall2 (processed_form case add) words processed
    ∧ Z.of_nat (length words) = n
    ∧ words ⊆+ pool
    ∧ (NoDup pool → NoDup words).
Proof.
  intros Hpool Hn Hv.
  destruct (generate_memorable_ok n case add np pool w Hpool Hn Hv)
    as (words & ps & w1 & w2 & Hs & _ & Hrun & Hlen & Hsub & Hall & _).
  exists words, ps. eexists.
  split_and!; [by rewrite Hs | exact Hrun | done | lia | done |].
  intros Hnd. destruct (submseteq_Permutation _ _ Hsub) as [k Hk].
  rewrite Hk in Hnd. by apply NoDup_app in Hnd as (? & _).
Qed.

Lemma generate_memorable_samples_without_replacement_witness :
  ∃ words processed w',
    (random_sample demo_pool (Z.to_nat 2) demo_world).1 = Return words
    ∧ generate_memorable 2 (lit "mixed") true (Some demo_pool) demo_world
      = (Return (join [HYPHEN] processed), w')
    ∧ Forall2 (processed_form (lit "mixed") true) words processed
    ∧ Z.of_nat (length words) = 2%Z
    ∧ words ⊆+ demo_pool
    ∧ (NoDup demo_pool → NoDup words).
Proof.
  apply (generate_memorable_samples_without_replacement 2 (lit "mixed") true
           (Some demo_pool) demo_pool demo_world).
  - reflexivity.
  - simpl. lia.
  - exact valid_case_mixed.
Defined.

(** C5, as stated, fails: from the pool ["a"; "a"] the two sampled words are
    equal. *)
Lemma generate_memorable_repeated_word_counterexample :
  (random_sample [lit "a"; lit "a"] 2 demo_world).1
  = Return [lit "a"; lit "a"]
  ∧ (generate_memorable 2 (lit "upper") false (Some [lit "a"; lit "a"])
       demo_world).1 = Return (lit "A-A")
  ∧ ¬ NoDup [lit "a"; lit "a"].
Proof.
  split_and!; [reflexivity | reflexivity |].
  intros Hnd. apply NoDup_cons in Hnd as [Hin _]. apply Hin. left.
Qed.

(** ** Characters that the case styles leave alone *)

(** A character without case: neither a lower-case nor an upper-case letter. *)
Definition uncased (x : ascii) : Prop := is_lower x = false ∧ is_upper x = false.

(** [recased w p]: [p] has the characters of [w], position by position, up to
    the case of letters. *)
Definition recased (w p : str) : Prop :=
  Forall2 (λ c c', c' = c ∨ is_lower c' = true ∨ is_upper c' = true) w p.

Lemma to_lower_cases c : to_lower c = c ∨ is_lower (to_lower c) = true.
Proof.
  destruct c as [[] [] [] [] [] [] [] []]; vm_compute; auto.
Qed.

Lemma to_upper_cases c : to_upper c = c ∨ is_upper (to_upper c) = true.
Proof.
  destruct c as [[] [] [] [] [] [] [] []]; vm_compute; auto.
Qed.

Lemma recased_lower w : recased w (lower w).
Proof.
  unfold recased, lower. induction w as [|c w IH]; simpl; constructor; [| done].
  destruct (to_lower_cases c); auto.
Qed.

Lemma recased_upper w : recased w (upper w).
Proof.
  unfold recased, upper. induction w as [|c w IH]; simpl; constructor; [| done].
  destruct (to_upper_cases c); auto.
Qed.

Lemma recased_title_from b w : recased w (title_from b w).
Proof.
  unfold recased. revert b. induction w as [|c w IH]; intros b; simpl;
    [constructor |].
  destruct (is_lower c) eqn:El; [| destruct (is_upper c) eqn:Eu].
  - constructor; [| apply IH].
    destruct b; [by left |]. destruct (to_upper_cases c); auto.
  - constructor; [| apply IH].
    destruct b; [| by left]. destruct (to_lower_cases c); auto.
  - constructor; [by left | apply IH].
Qed.

Lemma styled_recased case w p : styled case w p → recased w p.
Proof.
  intros [[_ ->]|[[_ ->]|[[_ ->]|[_ Hin]]]].
  - apply recased_lower.
  - apply recased_upper.
  - apply recased_title_from.
  - rewrite !elem_of_cons, elem_of_nil in Hin.
    destruct Hin as [->|[->|[->|[]]]];
      [apply recased_lower | apply recased_upper | apply recased_title_from].
Qed.

(** An uncased character occurs in a restyled word only where the word has
    it. *)
Lemma recased_uncased w p x : recased w p → uncased x → x ∈ p → x ∈ w.
Proof.
  intros Hr [Hl Hu]. induction Hr as [|c c' w p Hc _ IH]; [done |].
  rewrite !elem_of_cons. intros [->|Hin]; [| by right; apply IH].
  destruct Hc as [->|[Hc|Hc]]; [by left | congruence | congruence].
Qed.

Lemma uncased_HYPHEN : uncased HYPHEN.
Proof. by split. Qed.

Lemma uncased_LF : uncased LF.
Proof. by split. Qed.

Lemma digits_is_digit d : d ∈ digits → is_digit d = true.
Proof.
  unfold digits. simpl. intros H.
  repeat (apply elem_of_cons in H as [->|H]; [done |]).
  by apply elem_of_nil in H.
Qed.

(** A processed word contains an uncased non-digit character only where the
    pool word has it. *)
Lemma processed_form_uncased case add w p x :
  processed_form case add w p → uncased x → is_digit x = false →
  x ∈ p → x ∈ w.
Proof.
  intros (c & Hst & Hsuf) Hx Hd Hin.
  apply (recased_uncased w c x); [by eapply styled_recased | done |].
  destruct add; simpl in Hsuf; [| by subst].
  destruct Hsuf as (d & Hdig & ->).
  apply elem_of_app in Hin as [|Hin]; [done |].
  apply list_elem_of_singleton in Hin as ->.
  apply digits_is_digit in Hdig. congruence.
Qed.

Lemma processed_words_uncased case add words processed pool x :
  Forall2 (processed_form case add) words processed →
  words ⊆+ pool → uncased x → is_digit x = false →
  Forall (λ w, x ∉ w) pool → Forall (λ p, x ∉ p) processed.
Proof.
  intros Hall Hsub Hx Hd Hpool.
  assert (Forall (λ w, x ∉ w) words) as Hwords.
  { rewrite Forall_forall in Hpool |- *. intros w Hw.
    apply Hpool. by eapply elem_of_submseteq. }
  clear Hsub Hpool.
  induction Hall as [|w p ws ps Hf _ IH]; [constructor |].
  apply Forall_cons in Hwords as [Hw Hws].
  constructor; [| by apply IH].
  intros Hin. apply Hw. by eapply processed_form_uncased.
Qed.

(** ** Joining and splitting *)

Lemma split_on_absent c s : c ∉ s → split_on c s = [s].
Proof.
  induction s as [|x r IH]; [done |]. intros Hn. simpl.
  apply not_elem_of_cons in Hn as [Hx Hr].
  case_decide; [congruence |]. by rewrite IH.
Qed.

Lemma split_on_app_sep c p rest :
  c ∉ p → split_on c (p ++ c :: rest) = p :: split_on c rest.
Proof.
  induction p as [|x r IH]; intros Hn; simpl.
  - by case_decide.
  - apply not_elem_of_cons in Hn as [Hx Hr].
    case_decide; [congruence |]. by rewrite IH.
Qed.

Lemma split_join c ps :
  ps ≠ [] → Forall (λ p, c ∉ p) ps → split_on c (join [c] ps) = ps.
Proof.
  intros Hne Hall. induction Hall as [|p qs Hp Hqs IH]; [done |].
  destruct qs as [|q qs].
  - simpl. by apply split_on_absent.
  - change (join [c] (p :: q :: qs)) with (p ++ c :: join [c] (q :: qs)).
    rewrite split_on_app_sep by done. by rewrite IH.
Qed.

Lemma join_absent x sep ps :
  x ∉ sep → Forall (λ p, x ∉ p) ps → x ∉ join sep ps.
Proof.
  intros Hsep Hall. induction Hall as [|p qs Hp Hqs IH]; [by simpl; apply not_elem_of_nil |].
  destruct qs as [|q qs]; [done |].
  change (join sep (p :: q :: qs)) with (p ++ sep ++ join sep (q :: qs)).
  rewrite !not_elem_of_app. auto.
Qed.

(** ** [generate_memorable]: digit suffixes *)

(** C6, as amended.  With digit suffixing enabled, each of the [n] words
    gets exactly one decimal digit appended after its case style, each digit
    from a draw of its own; when no pool word contains a hyphen, the
    hyphen-separated segments of the result are exactly these [n] suffixed
    words, so every segment ends in that digit. *)
Theorem generate_memorable_digit_suffix n case np pool w :
  pool_of np w = Some pool →
  (1 ≤ n ≤ Z.of_nat (length pool))%Z →
  valid_case case →
  ∃ words processed w',
    generate_memorable n case true np w
    = (Return (join [HYPHEN] processed), w')
    ∧ Z.of_nat (length words) = n
    ∧ words ⊆+ pool
    ∧ Forall2 (λ wd p, ∃ c d, styled case wd c ∧ is_digit d = true
                              ∧ p = c ++ [d]) words processed
    ∧ (Forall (λ wd, HYPHEN ∉ wd) pool →
       split_on HYPHEN (join [HYPHEN] processed) = processed).
Proof.
  intros Hpool Hn Hv.
  destruct (generate_memorable_ok n case true np pool w Hpool Hn Hv)
    as (words & ps & w1 & w2 & _ & _ & Hrun & Hlen & Hsub & Hall & _).
  exists words, ps. eexists. split_and!; [exact Hrun | lia | done | |].
  - eapply Forall2_impl; [exact Hall |].
    intros wd p (c & Hst & d & Hd & ->).
    exists c, d. split_and!; [done | by apply digits_is_digit | done].
  - intros Hclean. apply split_join.
    + apply Forall2_length in Hall. destruct ps; [simpl in Hall; lia | done].
    + by eapply (processed_words_uncased case true words ps pool HYPHEN);
        [| | apply uncased_HYPHEN | |].
Qed.

Lemma generate_memorable_digit_suffix_witness :
  ∃ words processed w',
    generate_memorable 3 (lit "mixed") true None demo_world
    = (Return (join [HYPHEN] processed), w')
    ∧ Z.of_nat (length words) = 3%Z
    ∧ words ⊆+ demo_pool
    ∧ Forall2 (λ wd p, ∃ c d, styled (lit "mixed") wd c ∧ is_digit d = true
                              ∧ p = c ++ [d]) words processed
    ∧ (Forall (λ wd, HYPHEN ∉ wd) demo_pool →
       split_on HYPHEN (join [HYPHEN] processed) = processed).
Proof.
  apply (generate_memorable_digit_suffix 3 (lit "mixed") None demo_pool
           demo_world).
  - reflexivity.
  - simpl. lia.
  - exact valid_case_mixed.
Defined.

(** C6, as stated, fails: the pool word "a-b" gives the password "a-b5",
    whose first hyphen-separated segment "a" does not end in a digit. *)
Lemma generate_memorable_hyphen_word_counterexample :
  (generate_memorable 1 (lit "lower") true (Some [lit "a-b"]) demo_world).1
  = Return (lit "a-b5")
  ∧ split_on HYPHEN (lit "a-b5") = [lit "a"; lit "b5"]
  ∧ Forall (λ c, is_digit c = false) (lit "a").
Proof. split_and!; [reflexivity | reflexivity | by repeat constructor]. Qed.

(** ** The alphabet of [generate_random] *)

(** The strings that a [forbidden] argument removes. *)
Definition forbidden_set (forbidden : option iterable) : gset str :=
  match forbidden with
  | Some f => to_set f
  | None => ∅
  end.

(** Strictly ascending code points. *)
Definition code_lt (a b : ascii) : Prop := code a < code b.

#[global] Instance code_le_trans : Transitive code_le.
Proof. unfold code_le. intros a b c. lia. Qed.

#[global] Instance code_le_total : Total code_le.
Proof. unfold code_le. intros a b. lia. Qed.

Lemma code_inj a b : code a = code b → a = b.
Proof.
  unfold code. intros H.
  rewrite <- (ascii_nat_embedding a), <- (ascii_nat_embedding b). by rewrite H.
Qed.

Lemma falsy_to_set f : truthy f = false → to_set f = ∅.
Proof.
  destruct f as [s|l|s]; simpl.
  - by destruct s.
  - by destruct l.
  - intros H. apply bool_decide_eq_false in H.
    destruct (decide (s = ∅)); [done | by destruct H].
Qed.

(** The alphabet: lower-case letters, upper-case letters and digits,
    punctuation when requested, without the forbidden characters. *)
Lemma elem_of_build_alphabet include_punct forbidden c :
  c ∈ build_alphabet include_punct forbidden
  ↔ (c ∈ ascii_lowercase ∨ c ∈ ascii_uppercase ∨ c ∈ digits
     ∨ (include_punct = true ∧ c ∈ punctuation))
    ∧ [c] ∉ forbidden_set forbidden.
Proof.
  unfold build_alphabet, forbidden_set.
  set (base := list_to_set (ascii_lowercase ++ ascii_uppercase ++ digits)
               : gset ascii).
  assert (c ∈ (if include_punct then base ∪ list_to_set punctuation else base)
          ↔ (c ∈ ascii_lowercase ∨ c ∈ ascii_uppercase ∨ c ∈ digits
             ∨ (include_punct = true ∧ c ∈ punctuation))) as Hbase.
  { unfold base. destruct include_punct.
    - rewrite elem_of_union, !elem_of_list_to_set, !elem_of_app. tauto.
    - rewrite !elem_of_list_to_set, !elem_of_app.
      split; [tauto | intros [?|[?|[?|[? _]]]]; auto; done]. }
  destruct forbidden as [f|].
  - destruct (truthy f) eqn:Et.
    + rewrite elem_of_filter, Hbase. tauto.
    + rewrite (falsy_to_set f Et), Hbase.
      split; [intros ?; split; [done | apply not_elem_of_empty] | tauto].
  - rewrite Hbase.
    split; [intros ?; split; [done | apply not_elem_of_empty] | tauto].
Qed.

(** [sorted] lists the members of a set, each once, in ascending order. *)
Lemma elem_of_sorted s c : c ∈ sorted s ↔ c ∈ s.
Proof.
  unfold sorted. rewrite merge_sort_Permutation. apply elem_of_elements.
Qed.

Lemma NoDup_sorted s : NoDup (sorted s).
Proof.
  unfold sorted. rewrite merge_sort_Permutation. apply NoDup_elements.
Qed.

Lemma StronglySorted_strict l :
  StronglySorted code_le l → NoDup l → StronglySorted code_lt l.
Proof.
  induction 1 as [|a l Hs IH Hall]; intros Hnd; constructor.
  - apply IH. by apply NoDup_cons in Hnd as [_ ?].
  - apply NoDup_cons in Hnd as [Hnin _].
    rewrite Forall_forall in Hall |- *. intros b Hb.
    specialize (Hall b Hb). unfold code_le in Hall. unfold code_lt.
    destruct (decide (code a = code b)) as [Heq|]; [| lia].
    apply code_inj in Heq. by subst.
Qed.

Lemma StronglySorted_sorted s : StronglySorted code_lt (sorted s).
Proof.
  apply StronglySorted_strict; [| apply NoDup_sorted].
  unfold sorted. apply (StronglySorted_merge_sort code_le).
Qed.

Lemma sorted_empty s : sorted s = [] ↔ s = ∅.
Proof.
  split.
  - intros H. apply set_eq. intros c. rewrite <- elem_of_sorted, H. set_solver.
  - intros ->. reflexivity.
Qed.

(** ** [generate_random] *)

Lemma draw_chars_spec alphabet n w :
  alphabet ≠ [] →
  ∃ pwd w', draw_chars alphabet n w = (Return pwd, w')
            ∧ length pwd = n ∧ Forall (λ c, c ∈ alphabet) pwd.
Proof.
  intros Hne. revert w. induction n as [|n IH]; intros w; simpl.
  { exists [], w. by split_and!. }
  destruct (secrets_choice_spec alphabet w Hne) as (c & w1 & Hc & Hin).
  erewrite bind_Return by exact Hc.
  destruct (IH w1) as (rest & w2 & Hr & Hlen & Hall).
  erewrite bind_Return by exact Hr.
  exists (c :: rest), w2. split_and!; [done | simpl; lia | by constructor].
Qed.

(** A call with a positive length and a non-empty alphabet: the draws and
    the log entry. *)
Lemma generate_random_ok len punct forbidden w :
  (1 ≤ len)%Z →
  build_alphabet punct forbidden ≠ ∅ →
  ∃ pwd w1,
    draw_chars (sorted (build_alphabet punct forbidden)) (Z.to_nat len) w
    = (Return pwd, w1)
    ∧ generate_random len punct forbidden w
      = (Return pwd,
         write_log RANDOM_LOG (log_entry (strftime (clock w)) pwd) w1)
    ∧ length pwd = Z.to_nat len
    ∧ Forall (λ c, c ∈ build_alphabet punct forbidden) pwd
    ∧ frame w w1.
Proof.
  intros Hlen Hne.
  destruct (draw_chars_spec (sorted (build_alphabet punct forbidden))
              (Z.to_nat len) w) as (pwd & w1 & Hd & Hl & Hall).
  { by rewrite sorted_empty. }
  assert (frame w w1) as Hfr by (by eapply quiet_draw_chars).
  exists pwd, w1. split_and!; [done | | done | | done].
  - unfold generate_random. destruct (Z.leb_spec len 0); [lia |].
    case_decide; [done |].
    erewrite bind_Return by exact Hd.
    unfold bind. rewrite append_log_run.
    destruct Hfr as (_ & _ & _ & ->). reflexivity.
  - eapply Forall_impl; [exact Hall |]. intros c. by rewrite elem_of_sorted.
Qed.

Lemma generate_random_invalid len punct forbidden w :
  (len ≤ 0)%Z ∨ build_alphabet punct forbidden = ∅ →
  ∃ msg, generate_random len punct forbidden w = (Raise (ValueError msg), w).
Proof.
  intros Hbad. unfold generate_random.
  destruct (Z.leb_spec len 0); [by eexists |].
  case_decide; [by eexists |]. destruct Hbad; [lia | done].
Qed.

Example demo_random_letters_digits :
  (generate_random 8 false (Some (IterList [])) demo_world).1
  = Return (lit "5IViv8LY").
Proof. vm_compute. reflexivity. Qed.

(** C1, as amended.  For every length [len >= 1], every [include_punct] flag
    and every forbidden collection that leaves the alphabet non-empty,
    [generate_random] returns a string of exactly [len] characters, each a
    member of the alphabet; the alphabet consists of the lower-case letters,
    the upper-case letters and the digits, plus the punctuation characters
    when [include_punct] is true, minus the forbidden characters, and it is
    sampled from a duplicate-free list in ascending order. *)
Theorem generate_random_length_and_alphabet len punct forbidden w :
  (1 ≤ len)%Z →
  build_alphabet punct forbidden ≠ ∅ →
  ∃ pwd w',
    generate_random len punct forbidden w = (Return pwd, w')
    ∧ (draw_chars (sorted (build_alphabet punct forbidden)) (Z.to_nat len) w).1
      = Return pwd
    ∧ Z.of_nat (length pwd) = len
    ∧ Forall (λ c, c ∈ sorted (build_alphabet punct forbidden)) pwd
    ∧ (∀ c, c ∈ sorted (build_alphabet punct forbidden)
            ↔ (c ∈ ascii_lowercase ∨ c ∈ ascii_uppercase ∨ c ∈ digits
               ∨ (punct = true ∧ c ∈ punctuation))
              ∧ [c] ∉ forbidden_set forbidden)
    ∧ StronglySorted code_lt (sorted (build_alphabet punct forbidden)).
Proof.
  intros Hlen Hne.
  destruct (generate_random_ok len punct forbidden w Hlen Hne)
    as (pwd & w1 & Hd & Hrun & Hl & Hall & _).
  exists pwd. eexists.
  split_and!; [exact Hrun | by rewrite Hd | lia | | |].
  - eapply Forall_impl; [exact Hall |]. intros c. by rewrite elem_of_sorted.
  - intros c. rewrite elem_of_sorted. apply elem_of_build_alphabet.
  - apply StronglySorted_sorted.
Qed.

Lemma build_alphabet_demo_nonempty :
  build_alphabet true (Some (IterStr (lit "O0Il|`' "))) ≠ ∅.
Proof.
  intros H. assert (chr 97 ∈ build_alphabet true (Some (IterStr (lit "O0Il|`' "))))
    as Hin; [| rewrite H in Hin; by apply not_elem_of_empty in Hin].
  apply elem_of_build_alphabet. split.
  - left. apply list_elem_of_here.
  - vm_compute. by intros [=].
Defined.

Lemma generate_random_length_and_alphabet_witness :
  ∃ pwd w',
    generate_random 12 true (Some (IterStr (lit "O0Il|`' "))) demo_world
    = (Return pwd, w')
    ∧ (draw_chars (sorted (build_alphabet true (Some (IterStr (lit "O0Il|`' ")))))
         (Z.to_nat 12) demo_world).1 = Return pwd
    ∧ Z.of_nat (length pwd) = 12%Z
    ∧ Forall (λ c, c ∈ sorted (build_alphabet true
                                 (Some (IterStr (lit "O0Il|`' "))))) pwd
    ∧ (∀ c, c ∈ sorted (build_alphabet true (Some (IterStr (lit "O0Il|`' "))))
            ↔ (c ∈ ascii_lowercase ∨ c ∈ ascii_uppercase ∨ c ∈ digits
               ∨ (true = true ∧ c ∈ punctuation))
              ∧ [c] ∉ forbidden_set (Some (IterStr (lit "O0Il|`' "))))
    ∧ StronglySorted code_lt
        (sorted (build_alphabet true (Some (IterStr (lit "O0Il|`' "))))).
Proof.
  apply (generate_random_length_and_alphabet 12 true
           (Some (IterStr (lit "O0Il|`' "))) demo_world).
  - lia.
  - exact build_alphabet_demo_nonempty.
Defined.

(** C1, as stated, fails: when every letter and digit is forbidden and
    punctuation is off, a call with length 8 raises instead of returning a
    string. *)
Lemma generate_random_all_forbidden_counterexample :
  (generate_random 8 false
     (Some (IterStr (ascii_lowercase ++ ascii_uppercase ++ digits)))
     demo_world).1
  = Raise (ValueError (lit "No characters available to generate password.")).
Proof. vm_compute. reflexivity. Qed.

(** C4.  [generate_random] raises [ValueError] exactly when [len <= 0] or the
    alphabet that results from adding punctuation and removing the forbidden
    characters is empty; for every [len >= 1] with a non-empty alphabet it
    returns a password. *)
Theorem generate_random_fails_iff len punct forbidden w :
  ((∃ msg, (generate_random len punct forbidden w).1 = Raise (ValueError msg))
   ↔ (len ≤ 0)%Z ∨ build_alphabet punct forbidden = ∅)
  ∧ ((∃ pwd, (generate_random len punct forbidden w).1 = Return pwd)
     ↔ (1 ≤ len)%Z ∧ build_alphabet punct forbidden ≠ ∅).
Proof.
  destruct (decide ((len ≤ 0)%Z ∨ build_alphabet punct forbidden = ∅))
    as [Hbad|Hgood].
  - destruct (generate_random_invalid len punct forbidden w Hbad) as [msg Hr].
    rewrite Hr. simpl. split; split.
    + done.
    + intros _. by exists msg.
    + by intros [pwd [=]].
    + intros [? ?]. destruct Hbad; [lia | done].
  - assert ((1 ≤ len)%Z ∧ build_alphabet punct forbidden ≠ ∅) as [Hl Hne].
    { split; [lia | intros He; apply Hgood; by right]. }
    destruct (generate_random_ok len punct forbidden w Hl Hne)
      as (pwd & w1 & _ & Hr & _).
    rewrite Hr. simpl. split; split.
    + by intros [msg [=]].
    + done.
    + done.
    + intros _. by exists pwd.
Qed.

Example demo_random_zero_length :
  (generate_random 0 true None demo_world).1
  = Raise (ValueError (lit "length must be >= 1.")).
Proof. reflexivity. Qed.

(** A returned password comes from a call with a positive length and a
    non-empty alphabet. *)
Lemma generate_random_Return_inv len punct forbidden w pwd w' :
  generate_random len punct forbidden w = (Return pwd, w') →
  (1 ≤ len)%Z ∧ build_alphabet punct forbidden ≠ ∅.
Proof.
  intros Hr.
  destruct (decide ((len ≤ 0)%Z ∨ build_alphabet punct forbidden = ∅))
    as [Hbad|Hgood].
  - destruct (generate_random_invalid len punct forbidden w Hbad) as [msg Hm].
    congruence.
  - split; [lia | intros He; apply Hgood; by right].
Qed.

Lemma elem_of_to_set_IterStr s c : [c] ∈ to_set (IterStr s) ↔ c ∈ s.
Proof.
  simpl. rewrite elem_of_list_to_set, list_elem_of_fmap. split.
  - by intros (c' & [= ->] & ?).
  - intros ?. by exists c.
Qed.

(** C7.  No forbidden character appears in a password that
    [generate_random] returns: a character that [forbidden] holds (as an
    element of a list or set, or as a character of a string) is not in the
    password. *)
Theorem generate_random_avoids_forbidden len punct forbidden w pwd w' :
  generate_random len punct forbidden w = (Return pwd, w') →
  ∀ c, [c] ∈ forbidden_set forbidden → c ∉ pwd.
Proof.
  intros Hr c Hc Hin.
  destruct (generate_random_Return_inv _ _ _ _ _ _ Hr) as [Hl Hne].
  destruct (generate_random_ok len punct forbidden w Hl Hne)
    as (pwd' & w1 & _ & Hrun & _ & Hall & _).
  assert (pwd' = pwd) as -> by congruence.
  rewrite Forall_forall in Hall. specialize (Hall c Hin).
  apply elem_of_build_alphabet in Hall as [_ Hnot]. by apply Hnot.
Qed.

Lemma generate_random_avoids_forbidden_witness :
  generate_random 8 false (Some (IterStr (lit "5IV"))) demo_world
  = (Return (lit "6KYlyCQe"),
     (generate_random 8 false (Some (IterStr (lit "5IV"))) demo_world).2)
  ∧ chr 53 ∉ lit "6KYlyCQe".
Proof.
  assert (generate_random 8 false (Some (IterStr (lit "5IV"))) demo_world
          = (Return (lit "6KYlyCQe"),
             (generate_random 8 false (Some (IterStr (lit "5IV"))) demo_world).2))
    as Hrun by (vm_compute; reflexivity).
  split; [exact Hrun |].
  apply (generate_random_avoids_forbidden 8 false (Some (IterStr (lit "5IV")))
           demo_world (lit "6KYlyCQe") _ Hrun (chr 53)).
  apply elem_of_to_set_IterStr. apply list_elem_of_here.
Defined.

(** A collection without elements removes nothing. *)
Lemma build_alphabet_falsy punct f :
  truthy f = false →
  build_alphabet punct (Some f) = build_alphabet punct None.
Proof. unfold build_alphabet. by intros ->. Qed.

Lemma generate_random_falsy len punct f w :
  truthy f = false →
  generate_random len punct (Some f) w = generate_random len punct None w.
Proof.
  intros Hf. unfold generate_random. by rewrite (build_alphabet_falsy punct f Hf).
Qed.

(** C9.  An empty forbidden collection (the empty string, the empty list or
    the empty set) gives the same alphabet and the same run as
    [forbidden = None], for every length and [include_punct]. *)
Theorem generate_random_empty_forbidden len punct w :
  (build_alphabet punct (Some (IterStr [])) = build_alphabet punct None
   ∧ generate_random len punct (Some (IterStr [])) w
     = generate_random len punct None w)
  ∧ (build_alphabet punct (Some (IterList [])) = build_alphabet punct None
     ∧ generate_random len punct (Some (IterList [])) w
       = generate_random len punct None w)
  ∧ (build_alphabet punct (Some (IterSet ∅)) = build_alphabet punct None
     ∧ generate_random len punct (Some (IterSet ∅)) w
       = generate_random len punct None w).
Proof.
  assert (truthy (IterSet ∅) = false) as Hset.
  { simpl. apply bool_decide_eq_false. by intros H. }
  split_and!;
    first [by apply build_alphabet_falsy | by apply generate_random_falsy].
Qed.

(** ** Log entries *)

Lemma newlines_app a b : newlines (a ++ b) = newlines a + newlines b.
Proof. unfold newlines. by rewrite filter_app, length_app. Qed.

Lemma newlines_absent s : LF ∉ s → newlines s = 0.
Proof.
  unfold newlines. induction s as [|c s IH]; [done |].
  intros Hn. apply not_elem_of_cons in Hn as [Hc Hs].
  rewrite filter_cons. case_decide; [congruence | by apply IH].
Qed.

(** Membership in a string literal, decided by running through it. *)
Ltac absent_from_literal H :=
  vm_compute in H;
  repeat (apply elem_of_cons in H as [H|H]; [discriminate H |]);
  by apply elem_of_nil in H.

Lemma digit_not_LF n : digit n ≠ LF.
Proof.
  unfold digit. pose proof (Nat.mod_upper_bound n 10 ltac:(done)) as Hlt.
  destruct (n mod 10) as [|[|[|[|[|[|[|[|[|[|k]]]]]]]]]]; try done. lia.
Qed.

Lemma fmt_a_no_LF d : LF ∉ fmt_a d.
Proof. destruct d; intros H; absent_from_literal H. Qed.

Lemma fmt_b_no_LF m : LF ∉ fmt_b m.
Proof. destruct m; intros H; absent_from_literal H. Qed.

Lemma pad2_no_LF n : LF ∉ pad2 n.
Proof.
  unfold pad2. intros H.
  apply elem_of_cons in H as [H|H]; [by eapply digit_not_LF |].
  apply list_elem_of_singleton in H. by eapply digit_not_LF.
Qed.

Lemma pad4_no_LF n : LF ∉ pad4 n.
Proof.
  unfold pad4. intros H.
  do 3 (apply elem_of_cons in H as [H|H]; [by eapply digit_not_LF |]).
  apply list_elem_of_singleton in H. by eapply digit_not_LF.
Qed.

Lemma space_no_LF : LF ∉ lit " ".
Proof. intros H. absent_from_literal H. Qed.

Lemma colon_no_LF : LF ∉ lit ":".
Proof. intros H. absent_from_literal H. Qed.

(** Splits a membership in a concatenation into its parts. *)
Ltac split_app H :=
  lazymatch type of H with
  | _ ∈ _ ++ _ => apply elem_of_app in H as [H|H]; [| split_app H]
  | _ => idtac
  end.

(** A time stamp has no line terminator. *)
Lemma strftime_one_line t : LF ∉ strftime t.
Proof.
  unfold strftime. intros H. split_app H;
    first [ by eapply fmt_a_no_LF | by eapply fmt_b_no_LF
          | by eapply pad2_no_LF | by eapply pad4_no_LF
          | by eapply space_no_LF | by eapply colon_no_LF ].
Qed.

(** An entry for a password without line terminator is one line. *)
Lemma log_entry_one_line t pwd :
  LF ∉ pwd → newlines (log_entry (strftime t) pwd) = 1.
Proof.
  intros Hp. unfold log_entry. rewrite !newlines_app.
  rewrite (newlines_absent (strftime t)) by apply strftime_one_line.
  rewrite (newlines_absent pwd) by done.
  reflexivity.
Qed.

Lemma build_alphabet_no_LF punct forbidden :
  LF ∉ build_alphabet punct forbidden.
Proof.
  rewrite elem_of_build_alphabet.
  intros [[H|[H|[H|[_ H]]]] _]; absent_from_literal H.
Qed.

(** A returned memorable password comes from a call with a readable pool, a
    valid count and a valid case mode. *)
Lemma generate_memorable_Return_inv n case add np w pwd w' :
  generate_memorable n case add np w = (Return pwd, w') →
  ∃ pool, pool_of np w = Some pool
          ∧ (1 ≤ n ≤ Z.of_nat (length pool))%Z ∧ valid_case case.
Proof.
  intros Hr. destruct (pool_of np w) as [pool|] eqn:Hpool.
  - exists pool. split; [done |].
    destruct (decide ((n ≤ 0 ∨ Z.of_nat (length pool) < n)%Z ∨ ¬ valid_case case))
      as [Hbad|Hgood].
    + destruct (generate_memorable_invalid n case add np pool w Hpool Hbad)
        as (msg & w1 & Hm). congruence.
    + split; [lia |]. destruct (decide (valid_case case)); [done |].
      exfalso. apply Hgood. by right.
  - exfalso. destruct np as [p|]; [done |].
    simpl in Hpool. destruct (nouns_file w) eqn:Hf; [done |].
    unfold generate_memorable in Hr.
    destruct (n <=? 0)%Z; [done |].
    unfold bind, load_nouns in Hr. by rewrite Hf in Hr.
Qed.

Lemma generate_memorable_no_LF n case add np pool w pwd w' :
  generate_memorable n case add np w = (Return pwd, w') →
  pool_of np w = Some pool →
  Forall (λ wd, LF ∉ wd) pool → LF ∉ pwd.
Proof.
  intros Hr Hpool Hclean.
  destruct (generate_memorable_Return_inv _ _ _ _ _ _ _ Hr)
    as (pool' & Hpool' & Hn & Hv).
  assert (pool' = pool) as -> by congruence.
  destruct (generate_memorable_ok n case add np pool w Hpool Hn Hv)
    as (words & ps & w1 & w2 & _ & _ & Hrun & _ & Hsub & Hall & _).
  assert (pwd = join [HYPHEN] ps) as -> by congruence.
  apply join_absent.
  - intros H. absent_from_literal H.
  - by eapply (processed_words_uncased case add words ps pool LF);
      [| | apply uncased_LF | |].
Qed.

Lemma generate_memorable_log n case add np w pwd w' :
  generate_memorable n case add np w = (Return pwd, w') →
  memorable_log w' = memorable_log w ++ log_entry (strftime (clock w)) pwd
  ∧ random_log w' = random_log w.
Proof.
  intros Hr.
  destruct (generate_memorable_Return_inv _ _ _ _ _ _ _ Hr)
    as (pool & Hpool & Hn & Hv).
  destruct (generate_memorable_ok n case add np pool w Hpool Hn Hv)
    as (words & ps & w1 & w2 & _ & _ & Hrun & _ & _ & _ & Hfr).
  rewrite Hrun in Hr. injection Hr as <- <-.
  destruct Hfr as (_ & Hm & Hrl & _). simpl. by rewrite Hm, Hrl.
Qed.

Lemma generate_random_log len punct forbidden w pwd w' :
  generate_random len punct forbidden w = (Return pwd, w') →
  random_log w' = random_log w ++ log_entry (strftime (clock w)) pwd
  ∧ memorable_log w' = memorable_log w
  ∧ LF ∉ pwd.
Proof.
  intros Hr.
  destruct (generate_random_Return_inv _ _ _ _ _ _ Hr) as [Hl Hne].
  destruct (generate_random_ok len punct forbidden w Hl Hne)
    as (pwd' & w1 & _ & Hrun & _ & Hall & Hfr).
  rewrite Hrun in Hr. injection Hr as <- <-.
  destruct Hfr as (_ & Hm & Hrl & _). simpl. rewrite Hm, Hrl.
  split_and!; [done | done |].
  intros Hin. rewrite Forall_forall in Hall.
  by apply (build_alphabet_no_LF punct forbidden), Hall.
Qed.

(** C8, as amended.  A successful call to [generate_memorable] or
    [generate_random] appends exactly the text "<timestamp>  |  <password>"
    and one line terminator to the log file of its mode, and leaves the other
    log file alone; that text is exactly one line whenever the password has
    no line terminator, which holds for every [generate_random] password and
    for every [generate_memorable] password built from a pool whose words
    have none.  A failing call changes neither log file. *)
Theorem generators_log_one_entry :
  (∀ n case add np w pwd w',
     generate_memorable n case add np w = (Return pwd, w') →
     memorable_log w' = memorable_log w ++ log_entry (strftime (clock w)) pwd
     ∧ random_log w' = random_log w
     ∧ (LF ∉ pwd → newlines (log_entry (strftime (clock w)) pwd) = 1)
     ∧ (∀ pool, pool_of np w = Some pool →
                Forall (λ wd, LF ∉ wd) pool → LF ∉ pwd))
  ∧ (∀ len punct forbidden w pwd w',
       generate_random len punct forbidden w = (Return pwd, w') →
       random_log w' = random_log w ++ log_entry (strftime (clock w)) pwd
       ∧ memorable_log w' = memorable_log w
       ∧ newlines (log_entry (strftime (clock w)) pwd) = 1)
  ∧ (∀ n case add np w e w',
       generate_memorable n case add np w = (Raise e, w') →
       memorable_log w' = memorable_log w ∧ random_log w' = random_log w)
  ∧ (∀ len punct forbidden w e w',
       generate_random len punct forbidden w = (Raise e, w') →
       memorable_log w' = memorable_log w ∧ random_log w' = random_log w).
Proof.
  split_and!.
  - intros n case add np w pwd w' Hr.
    destruct (generate_memorable_log _ _ _ _ _ _ _ Hr) as [Hm Hrl].
    split_and!; [done | done | apply log_entry_one_line |].
    intros pool Hpool Hclean. by eapply generate_memorable_no_LF.
  - intros len punct forbidden w pwd w' Hr.
    destruct (generate_random_log _ _ _ _ _ _ Hr) as (Hrl & Hm & Hlf).
    split_and!; [done | done | by apply log_entry_one_line].
  - intros n case add np w e w' Hr.
    by destruct (silent_generate_memorable n case add np w e w' Hr)
      as (_ & ? & ? & _).
  - intros len punct forbidden w e w' Hr.
    by destruct (silent_generate_random len punct forbidden w e w' Hr)
      as (_ & ? & ? & _).
Qed.

Lemma generators_log_one_entry_witness :
  memorable_log
    (generate_memorable 3 (lit "upper") false (Some demo_pool) demo_world).2
  = memorable_log demo_world
    ++ log_entry (strftime (clock demo_world)) (lit "SUN-DOG-CAT")
  ∧ random_log
      (generate_memorable 3 (lit "upper") false (Some demo_pool) demo_world).2
    = random_log demo_world
  ∧ (LF ∉ lit "SUN-DOG-CAT" →
     newlines (log_entry (strftime (clock demo_world)) (lit "SUN-DOG-CAT")) = 1)
  ∧ (∀ pool, pool_of (Some demo_pool) demo_world = Some pool →
             Forall (λ wd, LF ∉ wd) pool → LF ∉ lit "SUN-DOG-CAT").
Proof.
  apply (proj1 generators_log_one_entry 3%Z (lit "upper") false (Some demo_pool)
           demo_world (lit "SUN-DOG-CAT")).
  reflexivity.
Defined.

(** C8, as stated, fails: a pool word with a line terminator in it gives a
    password whose log entry spans two lines. *)
Lemma generate_memorable_two_line_entry_counterexample :
  (generate_memorable 1 (lit "lower") false (Some [[chr 97; LF; chr 98]])
     demo_world).1 = Return [chr 97; LF; chr 98]
  ∧ memorable_log
      (generate_memorable 1 (lit "lower") false (Some [[chr 97; LF; chr 98]])
         demo_world).2
    = lit "Tue Nov 03 2026 17:29:05  |  a" ++ [LF] ++ lit "b" ++ [LF]
  ∧ newlines
      (memorable_log
         (generate_memorable 1 (lit "lower") false (Some [[chr 97; LF; chr 98]])
            demo_world).2) = 2.
Proof. split_and!; reflexivity. Qed.

(** ** [load_nouns] *)

(** A string that does not start with whitespace. *)
Definition starts_clean (s : str) : Prop :=
  match s with
  | [] => True
  | c :: _ => is_space c = false
  end.

Lemma lstrip_clean s : starts_clean (lstrip s).
Proof.
  induction s as [|c r IH]; simpl; [done |].
  destruct (is_space c) eqn:E; [done | by simpl].
Qed.

Lemma lstrip_id s : starts_clean s → lstrip s = s.
Proof. destruct s as [|c r]; simpl; [done |]. by intros ->. Qed.

Lemma lstrip_suffix s : ∃ k, s = k ++ lstrip s.
Proof.
  induction s as [|c r [k IH]]; simpl; [by exists [] |].
  destruct (is_space c).
  - exists (c :: k). simpl. by rewrite <- IH.
  - by exists [].
Qed.

Lemma starts_clean_prefix a b : starts_clean (a ++ b) → starts_clean a.
Proof. by destruct a. Qed.

(** Stripping a stripped string changes nothing. *)
Lemma strip_idemp s : strip (strip s) = strip s.
Proof.
  unfold strip, rstrip.
  set (t := lstrip s). set (u := lstrip (rev t)).
  assert (starts_clean (rev u)) as Hru.
  { destruct (lstrip_suffix (rev t)) as [k Hk]. fold u in Hk.
    apply (starts_clean_prefix _ (rev k)).
    rewrite <- rev_app_distr, <- Hk, rev_involutive. apply lstrip_clean. }
  rewrite (lstrip_id (rev u) Hru), rev_involutive.
  by rewrite (lstrip_id u (lstrip_clean _)).
Qed.

Lemma nouns_of_text_clean text :
  Forall (λ x, x ≠ [] ∧ strip x = x) (nouns_of_text text).
Proof.
  unfold nouns_of_text. rewrite Forall_forall. intros x Hx.
  apply list_elem_of_fmap in Hx as (line & -> & Hline).
  apply list_elem_of_filter in Hline as [Hne _].
  split; [| apply strip_idemp].
  intros He. by rewrite He in Hne.
Qed.

Lemma slice_stop_le limit len : slice_stop limit len ≤ len.
Proof. unfold slice_stop. destruct (limit <? 0)%Z eqn:E; lia. Qed.

(** C10, as amended.  For every readable word-list file and every limit,
    [load_nouns] returns a list in which every element is non-empty and
    equal to its own stripped form, and with a limit [m] the list is a prefix
    of the unlimited result; it has at most [m] elements when [m >= 0], and
    for a negative [m] it is the unlimited result without its last [-m]
    elements. *)
Theorem load_nouns_stripped_prefix text limit w :
  nouns_file w = Some text →
  ∃ words every,
    load_nouns limit w = (Return words, w)
    ∧ load_nouns None w = (Return every, w)
    ∧ Forall (λ x, x ≠ [] ∧ strip x = x) words
    ∧ words `prefix_of` every
    ∧ (∀ m, limit = Some m → (0 ≤ m)%Z → (Z.of_nat (length words) ≤ m)%Z)
    ∧ (∀ m, limit = Some m → (m < 0)%Z →
            length words = length every - Z.to_nat (- m)).
Proof.
  intros Hf. unfold load_nouns. rewrite Hf.
  set (every := nouns_of_text text).
  destruct limit as [m|].
  - exists (take (slice_stop m (length every)) every), every.
    split_and!; [done | done | | | |].
    + apply Forall_take, nouns_of_text_clean.
    + apply prefix_take.
    + intros m' [= <-] Hm. rewrite length_take. unfold slice_stop.
      destruct (Z.ltb_spec m 0); lia.
    + intros m' [= <-] Hm. rewrite length_take. unfold slice_stop.
      destruct (Z.ltb_spec m 0); lia.
  - exists every, every.
    split_and!; [done | done | apply nouns_of_text_clean | done | |];
      by intros m [=].
Qed.

Lemma load_nouns_stripped_prefix_witness :
  ∃ words every,
    load_nouns (Some 2%Z) demo_world = (Return words, demo_world)
    ∧ load_nouns None demo_world = (Return every, demo_world)
    ∧ Forall (λ x, x ≠ [] ∧ strip x = x) words
    ∧ words `prefix_of` every
    ∧ (∀ m, Some 2%Z = Some m → (0 ≤ m)%Z → (Z.of_nat (length words) ≤ m)%Z)
    ∧ (∀ m, Some 2%Z = Some m → (m < 0)%Z →
            length words = length every - Z.to_nat (- m)).
Proof.
  apply (load_nouns_stripped_prefix (lit " cat
dog  

sun") (Some 2%Z) demo_world).
  reflexivity.
Defined.

Example demo_load_nouns :
  (load_nouns (Some 2%Z) demo_world).1 = Return [lit "cat"; lit "dog"].
Proof. reflexivity. Qed.

(** C10, as stated, fails: with the limit -1 the three-word file gives two
    words, which is more than the limit. *)
Lemma load_nouns_negative_limit_counterexample :
  (load_nouns (Some (-1)%Z) demo_world).1 = Return [lit "cat"; lit "dog"]
  ∧ ¬ (Z.of_nat (length [lit "cat"; lit "dog"]) ≤ -1)%Z.
Proof. split; [reflexivity | simpl; lia]. Qed.

(** * The batch driver and the command line *)

(** [ensure_dirs]: the two log directories are created when they are absent.
    Directories are not part of the [world] (a log file of the model can
    always be appended to), so nothing changes. *)
Definition ensure_dirs : M unit := ret tt.

(** [random.random() < 0.5]: the comparison of a uniform draw from [0, 1)
    with one half, as one draw below 2 from the [random] stream. *)
Definition random_below_half : M bool :=
  let! r := random_below 2 in ret (r =? 0).

(** The characters of the string literal that [generate_1000_mixed] forbids. *)
Definition AMBIGUOUS : str := lit "O0Il|`'" ++ [chr 34] ++ lit " ".

(** One round of the loop of [generate_1000_mixed]. *)
Definition mixed_round : M unit :=
  let! low := random_below_half in
  if (low : bool) then
    let! n := random_choice [3; 4; 5]%Z in
    let! c := random_choice [lit "lower"; lit "upper"; lit "title"; lit "mixed"] in
    let! _ := generate_memorable n c true None in
    ret tt
  else
    let! L := random_choice [12; 14; 16; 20]%Z in
    let! include_punct := random_choice [true; false] in
    let forbidden := IterSet (list_to_set (map (λ c, [c]) AMBIGUOUS)) in
    let! _ := generate_random L include_punct (Some forbidden) in
    ret tt.

(** [for _ in range(k): body]. *)
Fixpoint for_range (k : nat) (body : M unit) : M unit :=
  match k with
  | 0 => ret tt
  | S k' => let! _ := body in for_range k' body
  end.

Definition generate_1000_mixed : M unit :=
  let! _ := ensure_dirs in
  for_range 1000 mixed_round.

(** The result of [parser.parse_args()]: [mode] is the subcommand, [None]
    without one; an option of a subcommand is present only when that
    subcommand was given. *)
Record namespace := {
  mode : option str;
  ns_n_words : option Z;
  ns_case : option str;
  ns_no_digit : option bool;
  ns_length : option Z;
  ns_no_punct : option bool;
  ns_forbidden : option str
}.

(** [getattr(args, name, dflt)]. *)
Definition getattr {A} (attr : option A) (dflt : A) : A :=
  match attr with
  | Some a => a
  | None => dflt
  end.

(** The branches of [main] on [args.mode]; the value is the list of lines
    that [print] writes. *)
Definition dispatch (args : namespace) (mode : str) : M (list str) :=
  if decide (mode = lit "memorable") then
    let! pwd := generate_memorable (getattr (ns_n_words args) 4%Z)
                  (getattr (ns_case args) (lit "lower"))
                  (negb (getattr (ns_no_digit args) false)) None in
    ret [pwd]
  else if decide (mode = lit "random") then
    let! pwd := generate_random (getattr (ns_length args) 16%Z)
                  (negb (getattr (ns_no_punct args) false))
                  (if nonempty (getattr (ns_forbidden args) [])
                   then Some (IterList (map (λ c, [c])
                                          (getattr (ns_forbidden args) [])))
                   else None) in
    ret [pwd]
  else if decide (mode = lit "stress") then
    let! _ := generate_1000_mixed in
    ret [lit "Generated 1000 mixed passwords."]
  else ret [].

(** [main] after [parser.parse_args()]; [typed] is the line that [input]
    reads when no subcommand was given. *)
Definition main (args : namespace) (typed : str) : M (list str) :=
  let! _ := ensure_dirs in
  match mode args with
  | None =>
      let choice := lower (strip typed) in
      let choice := if decide (choice = []) then lit "memorable" else choice in
      if decide (choice ∈ [lit "memorable"; lit "random"; lit "stress"])
      then dispatch args choice
      else ret [lit "Invalid choice."]
  | Some m => dispatch args m
  end.

(** ** Which random source is used, and how often *)

(** [draws r s w w']: from [w] to [w'], [r] numbers were drawn from the
    [random] stream and [s] from the system stream; the streams themselves
    are unchanged. *)
Definition draws (r s : nat) (w w' : world) : Prop :=
  random_src w' = random_src w ∧ secrets_src w' = secrets_src w
  ∧ random_pos w' = random_pos w + r ∧ secrets_pos w' = secrets_pos w + s.

(** [uses r s m]: a returning run of [m] makes exactly these draws. *)
Definition uses {A} (r s : nat) (m : M A) : Prop :=
  ∀ w a w', m w = (Return a, w') → draws r s w w'.

Lemma draws_refl w : draws 0 0 w w.
Proof. unfold draws. split_and!; [done | done | lia | lia]. Qed.

Lemma draws_trans r1 s1 r2 s2 w1 w2 w3 :
  draws r1 s1 w1 w2 → draws r2 s2 w2 w3 → draws (r1 + r2) (s1 + s2) w1 w3.
Proof.
  intros (?&?&?&?) (?&?&?&?). unfold draws.
  split_and!; [congruence | congruence | lia | lia].
Qed.

Lemma uses_ret {A} (a : A) : uses 0 0 (ret a).
Proof. intros w b w' [= <- <-]. apply draws_refl. Qed.

Lemma uses_raise {A} r s e : uses r s (@raise A e).
Proof. by intros w b w' [=]. Qed.

Lemma uses_bind {A B} r1 s1 r2 s2 (m : M A) (k : A → M B) :
  uses r1 s1 m → (∀ a, uses r2 s2 (k a)) → uses (r1 + r2) (s1 + s2) (bind m k).
Proof.
  intros Hm Hk w b w'. unfold bind.
  destruct (m w) as [[a|e] w1] eqn:E; [| done]. intros H.
  eapply draws_trans; [by eapply Hm | by eapply Hk].
Qed.


Lemma uses_secrets_below n : uses 0 1 (secrets_below n).
Proof.
  intros w a w' [= <- <-]. unfold draws. simpl. split_and!; [done | done | lia | lia].
Qed.

Lemma uses_item {A} (l : list A) i : uses 0 0 (item l i).
Proof. unfold item. destruct (l !! i); [apply uses_ret | apply uses_raise]. Qed.


Lemma uses_secrets_choice {A} (l : list A) : uses 0 1 (secrets_choice l).
Proof.
  destruct l; simpl; [apply uses_raise |].
  apply (uses_bind 0 1 0 0); [apply uses_secrets_below | intros i; apply uses_item].
Qed.








Lemma uses_draw_chars alphabet n : uses 0 n (draw_chars alphabet n).
Proof.
  induction n as [|n IH]; simpl; [apply uses_ret |].
  apply (uses_bind 0 1 0 n); [apply uses_secrets_choice | intros c].
  replace n with (n + 0) at 1 by lia.
  apply (uses_bind 0 n 0 0); [apply IH | intros rest; apply uses_ret].
Qed.

Lemma draws_write_log r s p text w w' :
  draws r s w w' → draws r s w (write_log p text w').
Proof. by destruct p. Qed.

(** A returning call of [generate_random] draws once per character from the
    system source and never from the [random] module. *)
Theorem generate_random_draws len punct forbidden w pwd w' :
  generate_random len punct forbidden w = (Return pwd, w') →
  random_src w' = random_src w ∧ random_pos w' = random_pos w
  ∧ secrets_src w' = secrets_src w
  ∧ secrets_pos w' = secrets_pos w + length pwd
  ∧ Z.of_nat (length pwd) = len.
Proof.
  intros Hr.
  destruct (generate_random_Return_inv _ _ _ _ _ _ Hr) as [Hl Hne].
  destruct (generate_random_ok len punct forbidden w Hl Hne)
    as (pwd' & w1 & Hd & Hrun & Hlen & _).
  rewrite Hrun in Hr. injection Hr as <- <-.
  apply uses_draw_chars in Hd.
  apply (draws_write_log _ _ RANDOM_LOG
           (log_entry (strftime (clock w)) pwd')) in Hd.
  destruct Hd as (? & ? & ? & ?). simpl in *.
  split_and!; [done | lia | done | lia | lia].
Qed.

Lemma generate_random_draws_witness :
  generate_random 8 false (Some (IterList [])) demo_world
  = (Return (lit "5IViv8LY"),
     (generate_random 8 false (Some (IterList [])) demo_world).2)
  ∧ random_pos (generate_random 8 false (Some (IterList [])) demo_world).2
    = random_pos demo_world
  ∧ secrets_pos (generate_random 8 false (Some (IterList [])) demo_world).2
    = secrets_pos demo_world + length (lit "5IViv8LY").
Proof.
  assert (generate_random 8 false (Some (IterList [])) demo_world
          = (Return (lit "5IViv8LY"),
             (generate_random 8 false (Some (IterList [])) demo_world).2))
    as Hrun by (vm_compute; reflexivity).
  split; [exact Hrun |].
  destruct (generate_random_draws 8 false (Some (IterList [])) demo_world
              (lit "5IViv8LY") _ Hrun) as (_ & Hr & _ & Hs & _).
  by split.
Defined.



(** ** The words of the word-list file *)

Lemma universal_newlines_no_CR_upto n s :
  length s ≤ n → CR ∉ universal_newlines s.
Proof.
  revert s. induction n as [|n IH]; intros s Hlen.
  { destruct s; [apply not_elem_of_nil | simpl in Hlen; lia]. }
  destruct s as [|c r]; [apply not_elem_of_nil |]. simpl in Hlen.
  simpl. case_decide as Hc.
  - destruct r as [|c' r'].
    + intros H. absent_from_literal H.
    + simpl in Hlen. case_decide.
      * apply not_elem_of_cons. split; [done |]. apply IH. lia.
      * apply not_elem_of_cons. split; [done |]. apply IH. simpl. lia.
  - apply not_elem_of_cons. split; [done |]. apply IH. lia.
Qed.

(** After newline translation a text has no carriage return. *)
Lemma universal_newlines_no_CR s : CR ∉ universal_newlines s.
Proof. by apply (universal_newlines_no_CR_upto (length s)). Qed.

(** A line of a file is its body, followed by the terminator unless it is an
    unterminated last line; the body has no terminator. *)
Lemma file_lines_shape s :
  Forall (λ l, ∃ body, (LF ∉ body) ∧ (l = body ++ [LF] ∨ l = body))
         (file_lines s).
Proof.
  induction s as [|c r IH]; simpl; [constructor |].
  case_decide as Hc.
  - constructor; [| done]. exists []. subst c.
    split; [apply not_elem_of_nil | by left].
  - destruct (file_lines r) as [|l ls]; constructor.
    + exists [c]. split; [| by right].
      apply not_elem_of_cons. split; [done | apply not_elem_of_nil].
    + constructor.
    + apply Forall_cons in IH as [(body & Hb & Hl) _].
      exists (c :: body). split.
      * apply not_elem_of_cons. by split.
      * destruct Hl as [->| ->]; [by left | by right].
    + by apply Forall_cons in IH as [_ ?].
Qed.

(** The characters of the lines are characters of the text. *)
Lemma file_lines_chars s l x : l ∈ file_lines s → x ∈ l → x ∈ s.
Proof.
  revert l. induction s as [|c r IH]; simpl; intros l Hl Hx;
    [by apply elem_of_nil in Hl |].
  case_decide as Hc.
  - apply elem_of_cons in Hl as [->|Hl].
    + apply list_elem_of_singleton in Hx as ->. left.
    + right. by eapply IH.
  - destruct (file_lines r) as [|l0 ls] eqn:E.
    + apply list_elem_of_singleton in Hl as ->.
      apply list_elem_of_singleton in Hx as ->. left.
    + apply elem_of_cons in Hl as [->|Hl].
      * apply elem_of_cons in Hx as [->|Hx]; [left | right].
        apply (IH l0); [left | done].
      * right. apply (IH l); [by right | done].
Qed.

(** [strip] cuts a piece out of the middle, and that piece does not end in
    whitespace. *)
Lemma strip_infix s : ∃ a b, s = a ++ strip s ++ b.
Proof.
  unfold strip, rstrip.
  destruct (lstrip_suffix s) as [k Hk].
  destruct (lstrip_suffix (rev (lstrip s))) as [k' Hk'].
  exists k, (rev k').
  rewrite <- rev_app_distr, <- Hk', rev_involutive. exact Hk.
Qed.

Lemma strip_ends_clean s : starts_clean (rev (strip s)).
Proof.
  unfold strip, rstrip. rewrite rev_involutive. apply lstrip_clean.
Qed.

Lemma strip_chars s x : x ∈ strip s → x ∈ s.
Proof.
  intros Hx. destruct (strip_infix s) as (a & b & Hs). rewrite Hs.
  rewrite !elem_of_app. auto.
Qed.

Lemma snoc_split_last {A} (body p q : list A) x :
  x ∉ body → body ++ [x] = p ++ x :: q → q = [].
Proof.
  intros Hx Heq. destruct q as [|y q]; [done |]. exfalso. apply Hx.
  assert (length p < length body) as Hlt.
  { apply (f_equal length) in Heq. rewrite !length_app in Heq.
    simpl in Heq. lia. }
  assert ((body ++ [x]) !! length p = Some x) as Hl.
  { rewrite Heq. by apply list_lookup_middle. }
  rewrite lookup_app_l in Hl by done.
  by eapply list_elem_of_lookup_2.
Qed.

(** The stripped form of a line has no line terminator. *)
Lemma strip_line_no_LF s l : l ∈ file_lines s → LF ∉ strip l.
Proof.
  intros Hl Hin.
  pose proof (file_lines_shape s) as Hshape.
  rewrite Forall_forall in Hshape.
  destruct (Hshape l Hl) as (body & Hb & [->| ->]).
  - destruct (strip_infix (body ++ [LF])) as (a & b & Hs).
    apply list_elem_of_split in Hin as (m1 & m2 & Hm).
    rewrite Hm in Hs.
    assert (m2 ++ b = []) as Hnil.
    { apply (snoc_split_last body (a ++ m1) (m2 ++ b) LF Hb).
      rewrite Hs. by rewrite <- !app_assoc. }
    apply app_eq_nil in Hnil as [-> ->].
    pose proof (strip_ends_clean (body ++ [LF])) as Hc.
    rewrite Hm, rev_app_distr in Hc. simpl in Hc. done.
  - by apply Hb, strip_chars.
Qed.

Lemma nouns_of_text_single_line text :
  Forall (λ x, (LF ∉ x) ∧ (CR ∉ x)) (nouns_of_text text).
Proof.
  unfold nouns_of_text. rewrite Forall_forall. intros x Hx.
  apply list_elem_of_fmap in Hx as (line & -> & Hline).
  apply list_elem_of_filter in Hline as [_ Hline].
  split; [by eapply strip_line_no_LF |].
  intros Hc. apply strip_chars in Hc.
  apply (universal_newlines_no_CR text). by eapply file_lines_chars.
Qed.

(** A word that [load_nouns] returns contains neither a line feed nor a
    carriage return, whatever line endings the file uses and whatever the
    limit is. *)
Theorem load_nouns_words_single_line limit w words w' :
  load_nouns limit w = (Return words, w') →
  Forall (λ x, (LF ∉ x) ∧ (CR ∉ x)) words.
Proof.
  unfold load_nouns. destruct (nouns_file w) as [text|]; [| done].
  intros [= <- <-]. destruct limit as [m|].
  - apply Forall_take, nouns_of_text_single_line.
  - apply nouns_of_text_single_line.
Qed.

Lemma load_nouns_words_single_line_witness :
  load_nouns None demo_world = (Return demo_pool, demo_world)
  ∧ Forall (λ x, (LF ∉ x) ∧ (CR ∉ x)) demo_pool.
Proof.
  assert (load_nouns None demo_world = (Return demo_pool, demo_world)) as Hrun
    by reflexivity.
  split; [exact Hrun |].
  exact (load_nouns_words_single_line None demo_world demo_pool demo_world Hrun).
Defined.

(** With the word-list file as the pool ([nouns_pool=None]), every
    successful call of [generate_memorable] appends exactly one line to the
    memorable log. *)
Theorem generate_memorable_file_pool_one_line n case add w pwd w' :
  generate_memorable n case add None w = (Return pwd, w') →
  (LF ∉ pwd)
  ∧ memorable_log w' = memorable_log w ++ log_entry (strftime (clock w)) pwd
  ∧ newlines (memorable_log w') = newlines (memorable_log w) + 1.
Proof.
  intros Hr.
  destruct (generate_memorable_Return_inv _ _ _ _ _ _ _ Hr)
    as (pool & Hpool & _).
  assert (LF ∉ pwd) as Hlf.
  { eapply generate_memorable_no_LF; [exact Hr | exact Hpool |].
    simpl in Hpool. destruct (nouns_file w) as [text|]; [| done].
    injection Hpool as <-.
    eapply Forall_impl; [apply nouns_of_text_single_line |]. by intros x [? _]. }
  destruct (generate_memorable_log _ _ _ _ _ _ _ Hr) as [Hm _].
  split_and!; [done | done |].
  by rewrite Hm, newlines_app, log_entry_one_line.
Qed.

Lemma generate_memorable_file_pool_one_line_witness :
  generate_memorable 2 (lit "title") true None demo_world
  = (Return (lit "Sun5-Dog8"),
     (generate_memorable 2 (lit "title") true None demo_world).2)
  ∧ newlines
      (memorable_log (generate_memorable 2 (lit "title") true None demo_world).2)
    = newlines (memorable_log demo_world) + 1.
Proof.
  assert (generate_memorable 2 (lit "title") true None demo_world
          = (Return (lit "Sun5-Dog8"),
             (generate_memorable 2 (lit "title") true None demo_world).2))
    as Hrun by (vm_compute; reflexivity).
  split; [exact Hrun |].
  by destruct (generate_memorable_file_pool_one_line 2 (lit "title") true
                 demo_world (lit "Sun5-Dog8") _ Hrun) as (_ & _ & ?).
Defined.

(** ** Which check fails first *)




Example demo_memorable_bad_case :
  (generate_memorable 2 (lit "loud") true None demo_world).1
  = Raise (ValueError (lit "case must be 'lower', 'upper', 'title', or 'mixed'"))
  ∧ random_pos (generate_memorable 2 (lit "loud") true None demo_world).2 = 2
  ∧ memorable_log (generate_memorable 2 (lit "loud") true None demo_world).2 = [].
Proof. split_and!; reflexivity. Qed.

(** A failing call of [generate_random] changes nothing at all, neither the
    logs nor the random sources; a length below 1 is reported before an
    empty alphabet. *)
Theorem generate_random_failures len punct forbidden w :
  ((len ≤ 0)%Z →
   generate_random len punct forbidden w
   = (Raise (ValueError (lit "length must be >= 1.")), w))
  ∧ ((1 ≤ len)%Z → build_alphabet punct forbidden = ∅ →
     generate_random len punct forbidden w
     = (Raise (ValueError
          (lit "No characters available to generate password.")), w))
  ∧ (∀ e w', generate_random len punct forbidden w = (Raise e, w') → w' = w).
Proof.
  unfold generate_random. split_and!.
  - intros Hl. by destruct (Z.leb_spec len 0); [| lia].
  - intros Hl He. destruct (Z.leb_spec len 0); [lia |].
    by case_decide.
  - intros e w'. destruct (Z.leb_spec len 0); [by intros [= _ <-] |].
    case_decide as Hne; [by intros [= _ <-] |].
    destruct (draw_chars_spec (sorted (build_alphabet punct forbidden))
                (Z.to_nat len) w) as (pwd & w1 & Hd & _).
    { by rewrite sorted_empty. }
    erewrite bind_Return by exact Hd. unfold bind.
    by rewrite append_log_run.
Qed.

(** ** The characters of a password *)

(** A printable ASCII character other than the space. *)
Definition is_graph (c : ascii) : bool := (33 <=? code c) && (code c <=? 126).

(** An ASCII letter or digit. *)
Definition is_alnum (c : ascii) : bool := is_lower c || is_upper c || is_digit c.

Lemma alnum_literals :
  Forall (λ c, is_alnum c = true ∧ is_graph c = true)
         (ascii_lowercase ++ ascii_uppercase ++ digits).
Proof. by repeat constructor. Qed.

Lemma punctuation_literals : Forall (λ c, is_graph c = true) punctuation.
Proof. by repeat constructor. Qed.

(** A password of [generate_random] consists of printable ASCII characters
    without the space; without punctuation it consists of ASCII letters and
    digits only. *)
Theorem generate_random_charset len punct forbidden w pwd w' :
  generate_random len punct forbidden w = (Return pwd, w') →
  Forall (λ c, is_graph c = true) pwd
  ∧ (punct = false → Forall (λ c, is_alnum c = true) pwd).
Proof.
  intros Hr.
  destruct (generate_random_Return_inv _ _ _ _ _ _ Hr) as [Hl Hne].
  destruct (generate_random_ok len punct forbidden w Hl Hne)
    as (pwd' & w1 & _ & Hrun & _ & Hall & _).
  assert (pwd' = pwd) as -> by congruence.
  pose proof alnum_literals as Ha. pose proof punctuation_literals as Hp.
  rewrite Forall_forall in Ha, Hp.
  split.
  - eapply Forall_impl; [exact Hall |]. intros c Hc.
    apply elem_of_build_alphabet in Hc as [[H|[H|[H|[_ H]]]] _];
      [apply Ha | apply Ha | apply Ha | by apply Hp];
      rewrite !elem_of_app; auto.
  - intros ->. eapply Forall_impl; [exact Hall |]. intros c Hc.
    apply elem_of_build_alphabet in Hc as [[H|[H|[H|[? _]]]] _];
      [apply Ha | apply Ha | apply Ha | done];
      rewrite !elem_of_app; auto.
Qed.

Lemma generate_random_charset_witness :
  generate_random 8 false (Some (IterList [])) demo_world
  = (Return (lit "5IViv8LY"),
     (generate_random 8 false (Some (IterList [])) demo_world).2)
  ∧ Forall (λ c, is_graph c = true) (lit "5IViv8LY")
  ∧ (false = false → Forall (λ c, is_alnum c = true) (lit "5IViv8LY")).
Proof.
  assert (generate_random 8 false (Some (IterList [])) demo_world
          = (Return (lit "5IViv8LY"),
             (generate_random 8 false (Some (IterList [])) demo_world).2))
    as Hrun by (vm_compute; reflexivity).
  split; [exact Hrun |].
  exact (generate_random_charset 8 false (Some (IterList [])) demo_world
           (lit "5IViv8LY") _ Hrun).
Defined.

Lemma Forall_join (P : ascii → Prop) sep parts :
  Forall P sep → Forall (Forall P) parts → Forall P (join sep parts).
Proof.
  intros Hsep Hall. induction Hall as [|p qs Hp Hqs IH]; [constructor |].
  destruct qs as [|q qs]; [done |].
  change (join sep (p :: q :: qs)) with (p ++ sep ++ join sep (q :: qs)).
  rewrite !Forall_app. auto.
Qed.

Lemma to_upper_not_lower c : is_lower (to_upper c) = false.
Proof. destruct c as [[] [] [] [] [] [] [] []]; reflexivity. Qed.

Lemma to_lower_not_upper c : is_upper (to_lower c) = false.
Proof. destruct c as [[] [] [] [] [] [] [] []]; reflexivity. Qed.

Lemma digits_uncased d : d ∈ digits → uncased d.
Proof.
  unfold digits. simpl. intros H.
  repeat (apply elem_of_cons in H as [->|H]; [done |]).
  by apply elem_of_nil in H.
Qed.

Lemma Forall2_right {A B} (R : A → B → Prop) (Q : B → Prop) l k :
  Forall2 R l k → (∀ x y, R x y → Q y) → Forall Q k.
Proof. intros H HQ. induction H; constructor; eauto. Qed.

Lemma processed_upper add wd p :
  processed_form (lit "upper") add wd p → Forall (λ c, is_lower c = false) p.
Proof.
  intros (c & Hst & Hsuf).
  destruct Hst as [[[=] _]|[[_ ->]|[[[=] _]|[[=] _]]]].
  assert (Forall (λ c, is_lower c = false) (upper wd)) as Hup.
  { unfold upper. rewrite Forall_fmap. apply Forall_true.
    intros c. apply to_upper_not_lower. }
  destruct add; simpl in Hsuf; [| by subst].
  destruct Hsuf as (d & Hd & ->). rewrite Forall_app. split; [done |].
  constructor; [| constructor]. by apply digits_uncased in Hd as [? _].
Qed.

Lemma processed_lower add wd p :
  processed_form (lit "lower") add wd p → Forall (λ c, is_upper c = false) p.
Proof.
  intros (c & Hst & Hsuf).
  destruct Hst as [[_ ->]|[[[=] _]|[[[=] _]|[[=] _]]]].
  assert (Forall (λ c, is_upper c = false) (lower wd)) as Hlo.
  { unfold lower. rewrite Forall_fmap. apply Forall_true.
    intros c. apply to_lower_not_upper. }
  destruct add; simpl in Hsuf; [| by subst].
  destruct Hsuf as (d & Hd & ->). rewrite Forall_app. split; [done |].
  constructor; [| constructor]. by apply digits_uncased in Hd as [_ ?].
Qed.

(** Under the case mode "upper" a memorable password has no lower-case
    letter, and under "lower" it has no upper-case letter, whatever the pool
    words look like and whether or not digits are added. *)
Theorem generate_memorable_case_guarantee n case add np w pwd w' :
  generate_memorable n case add np w = (Return pwd, w') →
  (case = lit "upper" → Forall (λ c, is_lower c = false) pwd)
  ∧ (case = lit "lower" → Forall (λ c, is_upper c = false) pwd).
Proof.
  intros Hr.
  destruct (generate_memorable_Return_inv _ _ _ _ _ _ _ Hr)
    as (pool & Hpool & Hn & Hv).
  destruct (generate_memorable_ok n case add np pool w Hpool Hn Hv)
    as (words & ps & w1 & w2 & _ & _ & Hrun & _ & _ & Hall & _).
  assert (pwd = join [HYPHEN] ps) as -> by congruence.
  split; intros ->; (apply Forall_join; [by repeat constructor |]).
  - eapply Forall2_right; [exact Hall |]. intros wd p. apply processed_upper.
  - eapply Forall2_right; [exact Hall |]. intros wd p. apply processed_lower.
Qed.

Lemma generate_memorable_case_guarantee_witness :
  generate_memorable 3 (lit "upper") false (Some demo_pool) demo_world
  = (Return (lit "SUN-DOG-CAT"),
     (generate_memorable 3 (lit "upper") false (Some demo_pool) demo_world).2)
  ∧ Forall (λ c, is_lower c = false) (lit "SUN-DOG-CAT").
Proof.
  assert (generate_memorable 3 (lit "upper") false (Some demo_pool) demo_world
          = (Return (lit "SUN-DOG-CAT"),
             (generate_memorable 3 (lit "upper") false (Some demo_pool)
                demo_world).2))
    as Hrun by (vm_compute; reflexivity).
  split; [exact Hrun |].
  exact (proj1 (generate_memorable_case_guarantee 3 (lit "upper") false
                  (Some demo_pool) demo_world (lit "SUN-DOG-CAT") _ Hrun)
           eq_refl).
Defined.

(** ** The length of a memorable password *)






(** ** Reading a log entry back *)

Lemma length_strftime t : length (strftime t) = 24.
Proof.
  unfold strftime. rewrite !length_app.
  by destruct (dt_weekday t), (dt_month t).
Qed.

(** A log entry is the 24-character time stamp, the separator of two
    spaces, a bar and two spaces, then the password and a line feed; so the
    password is what follows the first 29 characters, up to the final line
    feed. *)
Theorem log_entry_parse t pwd :
  take 24 (log_entry (strftime t) pwd) = strftime t
  ∧ take 5 (drop 24 (log_entry (strftime t) pwd)) = lit "  |  "
  ∧ drop 29 (log_entry (strftime t) pwd) = pwd ++ [LF]
  ∧ length (log_entry (strftime t) pwd) = 30 + length pwd.
Proof.
  unfold log_entry.
  pose proof (length_strftime t) as Hlen.
  split_and!.
  - rewrite take_app_length'; done.
  - rewrite drop_app_length' by done. reflexivity.
  - replace 29 with (24 + 5) by done.
    rewrite <- drop_drop, drop_app_length' by done. reflexivity.
  - rewrite !length_app, Hlen. simpl. lia.
Qed.

Example demo_log_entry :
  log_entry (strftime demo_clock) (lit "SUN-DOG-CAT")
  = lit "Tue Nov 03 2026 17:29:05  |  SUN-DOG-CAT" ++ [LF].
Proof. reflexivity. Qed.

(** ** The batch driver *)

(** [logged k w w']: from [w] to [w'] the word list and the clock are the
    same, both logs were only appended to, and together they have [k] more
    lines. *)
Definition logged (k : nat) (w w' : world) : Prop :=
  nouns_file w' = nouns_file w ∧ clock w' = clock w
  ∧ memorable_log w `prefix_of` memorable_log w'
  ∧ random_log w `prefix_of` random_log w'
  ∧ newlines (memorable_log w') + newlines (random_log w')
    = newlines (memorable_log w) + newlines (random_log w) + k.

Lemma logged_frame w w' : frame w w' → logged 0 w w'.
Proof.
  intros (Hn & Hm & Hr & Hc). unfold logged. rewrite Hn, Hm, Hr, Hc.
  split_and!; [done | done | done | done | lia].
Qed.

Lemma logged_trans a b w1 w2 w3 :
  logged a w1 w2 → logged b w2 w3 → logged (a + b) w1 w3.
Proof.
  intros (?&?&?&?&?) (?&?&?&?&?). unfold logged.
  split_and!; [congruence | congruence | by etrans | by etrans | lia].
Qed.

Lemma generate_memorable_file_logged n case add w pwd w' :
  generate_memorable n case add None w = (Return pwd, w') → logged 1 w w'.
Proof.
  intros Hr.
  destruct (generate_memorable_file_pool_one_line _ _ _ _ _ _ Hr)
    as (_ & Hm & Hlines).
  destruct (generate_memorable_log _ _ _ _ _ _ _ Hr) as [_ Hrl].
  destruct (generate_memorable_Return_inv _ _ _ _ _ _ _ Hr)
    as (pool & Hpool & Hn & Hv).
  destruct (generate_memorable_ok n case add None pool w Hpool Hn Hv)
    as (words & ps & w1 & w2 & _ & _ & Hrun & _ & _ & _ & Hfr).
  rewrite Hrun in Hr. injection Hr as _ <-.
  destruct Hfr as (Hnf & _ & _ & Hc).
  unfold logged. split_and!; [done | done | | | ].
  - rewrite Hm. by apply prefix_app_r.
  - by rewrite Hrl.
  - rewrite Hlines, Hrl. lia.
Qed.

Lemma generate_random_logged len punct forbidden w pwd w' :
  generate_random len punct forbidden w = (Return pwd, w') → logged 1 w w'.
Proof.
  intros Hr.
  destruct (generate_random_log _ _ _ _ _ _ Hr) as (Hrl & Hm & Hlf).
  destruct (generate_random_Return_inv _ _ _ _ _ _ Hr) as [Hl Hne].
  destruct (generate_random_ok len punct forbidden w Hl Hne)
    as (pwd' & w1 & _ & Hrun & _ & _ & Hfr).
  rewrite Hrun in Hr. injection Hr as _ <-.
  destruct Hfr as (Hnf & _ & _ & Hc).
  unfold logged. split_and!; [done | done | | | ].
  - by rewrite Hm.
  - rewrite Hrl. by apply prefix_app_r.
  - rewrite Hrl, Hm, newlines_app, (log_entry_one_line _ _ Hlf). lia.
Qed.

Lemma ambiguous_alphabet_nonempty punct :
  build_alphabet punct
    (Some (IterSet (list_to_set (map (λ c, [c]) AMBIGUOUS)))) ≠ ∅.
Proof.
  intros H.
  assert (chr 97 ∈ build_alphabet punct
            (Some (IterSet (list_to_set (map (λ c, [c]) AMBIGUOUS)))))
    as Hin; [| rewrite H in Hin; by apply not_elem_of_empty in Hin].
  apply elem_of_build_alphabet. split; [left; apply list_elem_of_here |].
  unfold forbidden_set, to_set. rewrite elem_of_list_to_set.
  intros Hbad. absent_from_literal Hbad.
Qed.

Lemma quiet_random_below_half : quiet random_below_half.
Proof.
  apply quiet_bind; [apply quiet_random_below | intros r; apply quiet_ret].
Qed.

(** One round of the batch loop, with a word list of at least five words:
    it returns and adds one line to one of the logs. *)
Lemma mixed_round_logged text w :
  nouns_file w = Some text →
  5 ≤ length (nouns_of_text text) →
  ∃ w', mixed_round w = (Return tt, w') ∧ logged 1 w w'.
Proof.
  intros Hfile Hfive. unfold mixed_round.
  destruct (random_below_half w) as [[low|e] w1] eqn:Hcoin; [| done].
  assert (frame w w1) as Hf1 by (by eapply quiet_random_below_half).
  erewrite bind_Return by exact Hcoin.
  destruct low.
  - destruct (random_choice_spec [3; 4; 5]%Z w1) as (n & w2 & Hn & Hnin);
      [done |].
    destruct (random_choice_spec
                [lit "lower"; lit "upper"; lit "title"; lit "mixed"] w2)
      as (c & w3 & Hc & Hcin); [done |].
    assert (frame w1 w2) as Hf2 by (by eapply quiet_random_choice).
    assert (frame w2 w3) as Hf3 by (by eapply quiet_random_choice).
    assert (frame w w3) as Hf by (eauto using frame_trans).
    erewrite bind_Return by exact Hn. erewrite bind_Return by exact Hc.
    assert (pool_of None w3 = Some (nouns_of_text text)) as Hpool.
    { destruct Hf as (Hnf & _). simpl. by rewrite Hnf, Hfile. }
    destruct (generate_memorable_ok n c true None (nouns_of_text text) w3 Hpool)
      as (words & ps & w4 & w5 & _ & _ & Hrun & _).
    { rewrite !elem_of_cons, elem_of_nil in Hnin.
      destruct Hnin as [->|[->|[->|[]]]]; lia. }
    { exact Hcin. }
    erewrite bind_Return by exact Hrun.
    eexists. split; [reflexivity |].
    replace 1 with (0 + 1) by done.
    eapply logged_trans; [by apply logged_frame |].
    by eapply generate_memorable_file_logged.
  - destruct (random_choice_spec [12; 14; 16; 20]%Z w1) as (L & w2 & HL & HLin);
      [done |].
    destruct (random_choice_spec [true; false] w2) as (p & w3 & Hp & _);
      [done |].
    assert (frame w1 w2) as Hf2 by (by eapply quiet_random_choice).
    assert (frame w2 w3) as Hf3 by (by eapply quiet_random_choice).
    assert (frame w w3) as Hf by (eauto using frame_trans).
    erewrite bind_Return by exact HL. erewrite bind_Return by exact Hp.
    destruct (generate_random_ok L p
                (Some (IterSet (list_to_set (map (λ c, [c]) AMBIGUOUS)))) w3)
      as (pwd & w4 & _ & Hrun & _).
    { rewrite !elem_of_cons, elem_of_nil in HLin.
      destruct HLin as [->|[->|[->|[->|[]]]]]; lia. }
    { apply ambiguous_alphabet_nonempty. }
    erewrite bind_Return by exact Hrun.
    eexists. split; [reflexivity |].
    replace 1 with (0 + 1) by done.
    eapply logged_trans; [by apply logged_frame |].
    by eapply generate_random_logged.
Qed.

Lemma for_range_mixed_logged text k w :
  nouns_file w = Some text →
  5 ≤ length (nouns_of_text text) →
  ∃ w', for_range k mixed_round w = (Return tt, w') ∧ logged k w w'.
Proof.
  intros Hfile Hfive. revert w Hfile.
  induction k as [|k IH]; intros w Hfile.
  { exists w. split; [done |]. apply logged_frame, frame_refl. }
  destruct (mixed_round_logged text w Hfile Hfive) as (w1 & Hrun & Hlog).
  destruct (IH w1) as (w2 & Hrest & Hlog2).
  { destruct Hlog as (Hnf & _). by rewrite Hnf. }
  exists w2. split.
  - cbn [for_range]. by erewrite bind_Return by exact Hrun.
  - replace (S k) with (1 + k) by done. by eapply logged_trans.
Qed.

(** With a readable word list of at least five words,
    [generate_1000_mixed] never fails: it returns after adding exactly 1000
    lines to the two logs together, appending to them and leaving their
    earlier content in place. *)
Theorem generate_1000_mixed_logs_1000 text w :
  nouns_file w = Some text →
  5 ≤ length (nouns_of_text text) →
  ∃ w', generate_1000_mixed w = (Return tt, w')
        ∧ memorable_log w `prefix_of` memorable_log w'
        ∧ random_log w `prefix_of` random_log w'
        ∧ newlines (memorable_log w') + newlines (random_log w')
          = newlines (memorable_log w) + newlines (random_log w) + 1000.
Proof.
  intros Hfile Hfive.
  destruct (for_range_mixed_logged text 1000 w Hfile Hfive)
    as (w' & Hrun & (_ & _ & Hm & Hr & Hlines)).
  exists w'. split_and!; [| done | done | done].
  unfold generate_1000_mixed, ensure_dirs.
  by erewrite bind_Return by reflexivity.
Qed.

(** A world whose word list has six words. *)
Definition six_words_world : world :=
  {| nouns_file := Some (lit "cat
dog
sun
tree
lake
bird
");
     memorable_log := [];
     random_log := [];
     clock := demo_clock;
     random_src := λ i, 7 * i + 2; random_pos := 0;
     secrets_src := λ i, 13 * i + 5; secrets_pos := 0 |}.

Lemma generate_1000_mixed_logs_1000_witness :
  ∃ w', generate_1000_mixed six_words_world = (Return tt, w')
        ∧ memorable_log six_words_world `prefix_of` memorable_log w'
        ∧ random_log six_words_world `prefix_of` random_log w'
        ∧ newlines (memorable_log w') + newlines (random_log w')
          = newlines (memorable_log six_words_world)
            + newlines (random_log six_words_world) + 1000.
Proof.
  apply (generate_1000_mixed_logs_1000 (lit "cat
dog
sun
tree
lake
bird
") six_words_world).
  - reflexivity.
  - vm_compute. lia.
Defined.

(** ** The command line *)

Lemma dispatch_output args m w out w' :
  dispatch args m w = (Return out, w') →
  (∃ pwd, out = [pwd]
          ∧ memorable_log w'
            = memorable_log w ++ log_entry (strftime (clock w)) pwd
          ∧ random_log w' = random_log w
          ∧ newlines (log_entry (strftime (clock w)) pwd) = 1)
  ∨ (∃ pwd, out = [pwd]
            ∧ random_log w'
              = random_log w ++ log_entry (strftime (clock w)) pwd
            ∧ memorable_log w' = memorable_log w
            ∧ newlines (log_entry (strftime (clock w)) pwd) = 1)
  ∨ out = [lit "Generated 1000 mixed passwords."]
  ∨ (out = [] ∧ w' = w).
Proof.
  unfold dispatch. repeat case_decide.
  - unfold bind at 1.
    destruct (generate_memorable _ _ _ None w) as [[pwd|e] w1] eqn:Hr; [| done].
    intros [= <- <-]. left. exists pwd.
    destruct (generate_memorable_log _ _ _ _ _ _ _ Hr) as [Hm Hrl].
    destruct (generate_memorable_file_pool_one_line _ _ _ _ _ _ Hr)
      as (Hlf & _).
    split_and!; [done | done | done | by apply log_entry_one_line].
  - unfold bind at 1.
    destruct (generate_random _ _ _ w) as [[pwd|e] w1] eqn:Hr; [| done].
    intros [= <- <-]. right. left. exists pwd.
    destruct (generate_random_log _ _ _ _ _ _ Hr) as (Hrl & Hm & Hlf).
    split_and!; [done | done | done | by apply log_entry_one_line].
  - unfold bind at 1.
    destruct (generate_1000_mixed w) as [[[]|e] w1]; [| done].
    intros [= <- <-]. right. right. by left.
  - intros [= <- <-]. right. right. by right.
Qed.

(** Whenever [main] returns, it has printed exactly one of these: the
    password that it has just appended, as a single line, to the memorable
    log; the password that it has just appended, as a single line, to the
    random log; the completion message of the stress mode; or "Invalid
    choice." after an unrecognised answer to the prompt, in which case
    nothing was generated or logged.  (It prints nothing only for a mode
    that is none of the three subcommands.) *)
Theorem main_prints_what_it_logs args typed w out w' :
  main args typed w = (Return out, w') →
  (∃ pwd, out = [pwd]
          ∧ memorable_log w'
            = memorable_log w ++ log_entry (strftime (clock w)) pwd
          ∧ random_log w' = random_log w
          ∧ newlines (log_entry (strftime (clock w)) pwd) = 1)
  ∨ (∃ pwd, out = [pwd]
            ∧ random_log w'
              = random_log w ++ log_entry (strftime (clock w)) pwd
            ∧ memorable_log w' = memorable_log w
            ∧ newlines (log_entry (strftime (clock w)) pwd) = 1)
  ∨ out = [lit "Generated 1000 mixed passwords."]
  ∨ (out = [lit "Invalid choice."] ∧ w' = w ∧ mode args = None)
  ∨ (out = [] ∧ w' = w ∧ ∃ m, mode args = Some m
                              ∧ m ∉ [lit "memorable"; lit "random"; lit "stress"]).
Proof.
  unfold main, ensure_dirs. erewrite bind_Return by reflexivity.
  destruct (mode args) as [m|] eqn:Hmode.
  - intros Hr. pose proof (dispatch_output _ _ _ _ _ Hr) as [H|[H|[H|[-> ->]]]];
      [by left | by right; left | by right; right; left |].
    do 4 right. split_and!; [done | done |]. exists m. split; [done |].
    intros Hin. unfold dispatch in Hr.
    rewrite !elem_of_cons, elem_of_nil in Hin.
    destruct Hin as [->|[->|[->|[]]]].
    + rewrite decide_True in Hr by done. unfold bind in Hr.
      by destruct (generate_memorable _ _ _ None w) as [[?|?] ?].
    + rewrite decide_False, decide_True in Hr by done. unfold bind in Hr.
      by destruct (generate_random _ _ _ w) as [[?|?] ?].
    + rewrite decide_False, decide_False, decide_True in Hr by done.
      unfold bind in Hr.
      by destruct (generate_1000_mixed w) as [[[]|?] ?].
  - case_decide as Hin.
    + intros Hr.
      pose proof (dispatch_output _ _ _ _ _ Hr) as [H|[H|[H|[-> ->]]]];
        [by left | by right; left | by right; right; left |].
      exfalso. unfold dispatch in Hr.
      rewrite !elem_of_cons, elem_of_nil in Hin.
      destruct Hin as [Hc|[Hc|[Hc|[]]]]; rewrite Hc in Hr.
      * rewrite decide_True in Hr by done. unfold bind in Hr.
        by destruct (generate_memorable _ _ _ None w) as [[?|?] ?].
      * rewrite decide_False, decide_True in Hr by done. unfold bind in Hr.
        by destruct (generate_random _ _ _ w) as [[?|?] ?].
      * rewrite decide_False, decide_False, decide_True in Hr by done.
        unfold bind in Hr.
        by destruct (generate_1000_mixed w) as [[[]|?] ?].
    + intros [= <- <-]. do 3 right. by left.
Qed.

(** A command line without subcommand and options. *)
Definition no_args : namespace :=
  {| mode := None; ns_n_words := None; ns_case := None; ns_no_digit := None;
     ns_length := None; ns_no_punct := None; ns_forbidden := None |}.

Example demo_main_invalid_choice :
  main no_args (lit "nope") demo_world
  = (Return [lit "Invalid choice."], demo_world).
Proof. reflexivity. Qed.

Example demo_main_default_needs_four_words :
  (main no_args (lit "") demo_world).1
  = Raise (ValueError (lit "n_words is larger than the nouns list.")).
Proof. reflexivity. Qed.

Lemma main_prints_what_it_logs_witness :
  main no_args (lit "  RANDOM ") demo_world
  = (Return [lit "&3@MZgt#0=JWdq~-"],
     (main no_args (lit "  RANDOM ") demo_world).2)
  ∧ random_log (main no_args (lit "  RANDOM ") demo_world).2
    = random_log demo_world
      ++ log_entry (strftime (clock demo_world)) (lit "&3@MZgt#0=JWdq~-").
Proof.
  assert (main no_args (lit "  RANDOM ") demo_world
          = (Return [lit "&3@MZgt#0=JWdq~-"],
             (main no_args (lit "  RANDOM ") demo_world).2))
    as Hrun by (vm_compute; reflexivity).
  split; [exact Hrun |].
  destruct (main_prints_what_it_logs no_args (lit "  RANDOM ") demo_world
              [lit "&3@MZgt#0=JWdq~-"] _ Hrun)
    as [(pwd & _ & Hm & _)|[(pwd & [= <-] & Hr & _)|[H|[(H & _)|(H & _)]]]];
    [| exact Hr | discriminate H | discriminate H | discriminate H].
  exfalso. revert Hm. vm_compute. intros Hm.
  apply (f_equal length) in Hm. simpl in Hm. rewrite length_app in Hm.
  simpl in Hm. lia.
Defined.

(** ** Which forbidden characters matter *)

(** The alphabet, written as one filter over the base characters. *)
Lemma build_alphabet_filter punct forbidden :
  build_alphabet punct forbidden
  = filter (λ c, [c] ∉ forbidden_set forbidden) (build_alphabet punct None).
Proof.
  apply set_eq. intros c.
  rewrite elem_of_filter, !elem_of_build_alphabet. simpl.
  split; [intros [? ?] | tauto].
  split_and!; [done | done | apply not_elem_of_empty].
Qed.

(** Only the one-character strings that a forbidden collection holds
    matter: two collections that hold the same ones, be they strings, lists
    or sets, in any order and with any repetitions, give the same alphabet
    and the same run. *)
Theorem generate_random_forbidden_extensional len punct f1 f2 w :
  (∀ c, [c] ∈ forbidden_set f1 ↔ [c] ∈ forbidden_set f2) →
  build_alphabet punct f1 = build_alphabet punct f2
  ∧ generate_random len punct f1 w = generate_random len punct f2 w.
Proof.
  intros Hsame.
  assert (build_alphabet punct f1 = build_alphabet punct f2) as Heq.
  { rewrite (build_alphabet_filter punct f1), (build_alphabet_filter punct f2).
    apply set_eq. intros c. rewrite !elem_of_filter, Hsame. done. }
  split; [done |]. unfold generate_random. by rewrite Heq.
Qed.

Lemma generate_random_forbidden_extensional_witness :
  build_alphabet true (Some (IterStr (lit "aab")))
  = build_alphabet true (Some (IterList [lit "b"; lit "a"; lit "xyz"]))
  ∧ generate_random 12 true (Some (IterStr (lit "aab"))) demo_world
    = generate_random 12 true (Some (IterList [lit "b"; lit "a"; lit "xyz"]))
        demo_world.
Proof.
  apply (generate_random_forbidden_extensional 12 true
           (Some (IterStr (lit "aab")))
           (Some (IterList [lit "b"; lit "a"; lit "xyz"])) demo_world).
  intros c. unfold forbidden_set, to_set.
  rewrite !elem_of_list_to_set. simpl.
  rewrite !elem_of_cons, !elem_of_nil.
  split.
  - intros [H|[H|[H|[]]]]; injection H as ->; auto.
  - intros [H|[H|[H|[]]]]; [injection H as ->; auto ..| discriminate H].
Defined.

(** ** How much must be forbidden for the alphabet to run out *)

(** The 62 letters and digits, as one-character strings. *)
Definition letters_and_digits : list str :=
  map (λ c, [c]) (ascii_lowercase ++ ascii_uppercase ++ digits).

Lemma letters_and_digits_NoDup : NoDup letters_and_digits.
Proof. refine (bool_decide_unpack (NoDup letters_and_digits) _). by vm_compute. Qed.

(** A forbidden collection with fewer than 62 different entries never
    empties the alphabet, so a call with a length of at least 1 returns a
    password. *)
Theorem generate_random_few_forbidden len punct forbidden w :
  (1 ≤ len)%Z →
  size (forbidden_set forbidden) < 62 →
  build_alphabet punct forbidden ≠ ∅
  ∧ ∃ pwd w', generate_random len punct forbidden w = (Return pwd, w').
Proof.
  intros Hlen Hsize.
  assert (build_alphabet punct forbidden ≠ ∅) as Hne.
  { intros Hempty.
    assert (list_to_set letters_and_digits ⊆ forbidden_set forbidden) as Hsub.
    { intros s Hs. apply elem_of_list_to_set in Hs.
      unfold letters_and_digits in Hs.
      apply list_elem_of_fmap in Hs as (c & -> & Hc).
      destruct (decide ([c] ∈ forbidden_set forbidden)) as [|Hnot]; [done |].
      exfalso. apply (not_elem_of_empty (C := gset ascii) c).
      rewrite <- Hempty. apply elem_of_build_alphabet.
      split; [| done]. rewrite !elem_of_app in Hc. tauto. }
    apply subseteq_size in Hsub.
    rewrite size_list_to_set in Hsub by apply letters_and_digits_NoDup.
    change (length letters_and_digits) with 62 in Hsub. lia. }
  split; [done |].
  destruct (generate_random_ok len punct forbidden w Hlen Hne)
    as (pwd & w1 & _ & Hrun & _).
  by eexists _, _.
Qed.

Lemma generate_random_few_forbidden_witness :
  build_alphabet false (Some (IterStr (lit "O0Il|`' "))) ≠ ∅
  ∧ ∃ pwd w', generate_random 12 false (Some (IterStr (lit "O0Il|`' ")))
                demo_world = (Return pwd, w').
Proof.
  apply (generate_random_few_forbidden 12 false
           (Some (IterStr (lit "O0Il|`' "))) demo_world).
  - lia.
  - vm_compute. lia.
Defined.
